(** * ts2html: the delimiter-aware scanner of [src/parser.ts]

    A shallow embedding of the hand-written scanner that recovers class
    metadata from a TypeScript declaration listing and from the compiled
    JavaScript, together with the properties the specification states
    about it.

    Conventions of the embedding.
    - A JavaScript string is a [list ascii] (code units below 256), an
      offset is a [Z] (the code uses [-1] as the not-found sentinel and
      passes it on to [charAt] and [slice]).
    - [charAt] out of range gives the empty string, which is falsy: it is
      [None] here.
    - A thrown exception is the [Throw] outcome of [Result]; loops of the
      source that may run forever carry a fuel argument and answer [None]
      when it runs out. *)

From Stdlib Require Import ZArith Ascii String List Bool Lia.
From stdpp Require Import base tactics option list gmap strings.

Local Open Scope Z_scope.

(** ** JavaScript strings *)

Abbreviation str := (list ascii).

(** Literal text: [lit "abc"] is the JavaScript string [abc]. *)
Definition lit (s : string) : str := list_ascii_of_string s.

Definition dquote : ascii := "034"%char.
Definition newline : ascii := "010"%char.
Definition backslash : ascii := "\"%char.

Definition len (s : str) : Z := Z.of_nat (length s).

(** [s.charAt(i)]; the empty string of an out-of-range index is [None]. *)
Definition charAt (s : str) (i : Z) : option ascii :=
  if i <? 0 then None else s !! Z.to_nat i.

(** Relative index of [slice] and [substr]: negative counts from the end,
    everything is clamped to [0, length]. *)
Definition relIndex (s : str) (i : Z) : Z :=
  if i <? 0 then Z.max (len s + i) 0 else Z.min i (len s).

(** [s.slice(from, to)] *)
Definition slice (s : str) (from to : Z) : str :=
  let a := relIndex s from in
  let b := relIndex s to in
  take (Z.to_nat (b - a)) (drop (Z.to_nat a) s).

(** [s.substr(from)] *)
Definition substr (s : str) (from : Z) : str :=
  drop (Z.to_nat (relIndex s from)) s.

Fixpoint starts_with (needle s : str) : bool :=
  match needle, s with
  | [], _ => true
  | _ :: _, [] => false
  | a :: needle', b :: s' => bool_decide (a = b) && starts_with needle' s'
  end.

Fixpoint indexOf_from (needle rest : str) (pos : Z) : Z :=
  if starts_with needle rest then pos
  else match rest with
       | [] => -1
       | _ :: rest' => indexOf_from needle rest' (pos + 1)
       end.

(** [s.indexOf(needle, from)] *)
Definition indexOf (s needle : str) (from : Z) : Z :=
  let k := Z.min (Z.max from 0) (len s) in
  indexOf_from needle (drop (Z.to_nat k) s) k.

(** The class [\s] of regular expressions, which is also what [trim]
    removes: tab, line feed, vertical tab, form feed, carriage return,
    space and (below 256) the no-break space. *)
Definition is_space (c : ascii) : bool :=
  match c with
  | "009" | "010" | "011" | "012" | "013" | " " | "160" => true
  | _ => false
  end%char.

Fixpoint trimStart (s : str) : str :=
  match s with
  | c :: s' => if is_space c then trimStart s' else s
  | [] => []
  end.

(** [s.trim()] *)
Definition trim (s : str) : str := rev (trimStart (rev (trimStart s))).

(** [s.split(sep)] for a one-character separator: never an empty list. *)
Fixpoint splitChar (sep : ascii) (s : str) : list str :=
  match s with
  | [] => [[]]
  | c :: s' =>
      if bool_decide (c = sep) then [] :: splitChar sep s'
      else match splitChar sep s' with
           | h :: t => (c :: h) :: t
           | [] => [[c]]
           end
  end.

(** [a.join(sep)]; [a.toString()] is [a.join(",")]. *)
Fixpoint join (sep : str) (a : list str) : str :=
  match a with
  | [] => []
  | [x] => x
  | x :: a' => x ++ sep ++ join sep a'
  end.

(** ** Outcomes *)

Inductive Exn :=
| SyntaxError (line : Z)   (* Parenthesis has no closing at line [line]. *)
| NoClassFound.            (* Error: no class found *)

Inductive Result (A : Type) :=
| Ok (a : A)
| Throw (e : Exn).
Arguments Ok {A} a.
Arguments Throw {A} e.

Definition bindR {A B} (r : Result A) (f : A -> Result B) : Result B :=
  match r with
  | Ok a => f a
  | Throw e => Throw e
  end.

(** A computation that may give no answer: [None] when the fuel of a
    loop ran out and, for [parseJS], when a name is outside of the
    patterns the embedding reads. *)
Definition Fuelled (A : Type) : Type := option (Result A).

Definition bindF {A B} (r : Fuelled A) (f : A -> Fuelled B) : Fuelled B :=
  match r with
  | Some (Ok a) => f a
  | Some (Throw e) => Some (Throw e)
  | None => None
  end.

Definition liftR {A} (r : Result A) : Fuelled A := Some r.
Definition retF {A} (a : A) : Fuelled A := Some (Ok a).

Declare Scope js_scope.
Delimit Scope js_scope with js.
Notation "x <- r ;; k" := (bindR r (fun x => k))
  (at level 100, r at next level, right associativity) : js_scope.
Notation "x <~ r ;; k" := (bindF r (fun x => k))
  (at level 100, r at next level, right associativity) : js_scope.
Local Open Scope js_scope.

(** ** The scanner *)

Definition OBJECT_BRACKETS : str := lit "{}".
Definition ARRAY_BRACKETS : str := lit "[]".
Definition GENERIC_BRACKETS : str := lit "<>".
Definition ROUND_BRACKETS : str := lit "()".

(** The [while] loop of [findClosing]: [rest] is the text from [offset]
    on, so that its head is [src.charAt(offset)]; [b0] and [b1] are
    [brackets[0]] and [brackets[1]] ([None] when undefined).  The result
    is [None] when the text ends, that is when [charAt] gives the empty
    string.  The [switch] takes the first [case] that is equal. *)
Fixpoint findClosing_loop (b0 b1 : option ascii) (rest : str)
    (offset opened : Z) : option Z :=
  match rest with
  | [] => None
  | char :: rest' =>
      if bool_decide (Some char = b0) then
        findClosing_loop b0 b1 rest' (offset + 1) (opened + 1)
      else if bool_decide (Some char = b1) then
        if opened - 1 <=? 0 then Some offset
        else findClosing_loop b0 b1 rest' (offset + 1) (opened - 1)
      else findClosing_loop b0 b1 rest' (offset + 1) opened
  end.

(** The [for] loop that finds the line of the error: [i] runs over the
    offsets below [start], and [/\n/.test(src.charAt(i))] holds for a
    line feed only (past the end of the text [charAt] is empty). *)
Fixpoint countNewlines_loop (n : nat) (src : str) (i line : Z) : Z :=
  match n with
  | O => line
  | S n' =>
      countNewlines_loop n' src (i + 1)
        (if bool_decide (charAt src i = Some newline) then line + 1 else line)
  end.

(** The number of times the loop adds one to [line]; the source starts
    [line] at 1, which [findClosing] below adds. *)
Definition countNewlines (src : str) (start : Z) : Z :=
  countNewlines_loop (Z.to_nat start) src 0 0.

Definition findClosing (src : str) (offset : Z) (brackets : str) : Result Z :=
  let start := offset in
  let scan :=
    if offset + 1 <? 0 then None
    else findClosing_loop (brackets !! 0%nat) (brackets !! 1%nat)
           (drop (Z.to_nat (offset + 1)) src) (offset + 1) 1 in
  match scan with
  | Some k => Ok k
  | None => Throw (SyntaxError (1 + countNewlines src start))
  end.

(** The search term of [goTo]: a string, or a regular expression (without
    the [g] flag, so that [test] keeps no state), which the loop only
    ever tests against one character. *)
Inductive Term :=
| TermString (s : str)
| TermRegExp (test : ascii -> bool).

(** [checkRegExp && term.test(char) || char === term] *)
Definition termMatches (term : Term) (char : ascii) : bool :=
  match term with
  | TermRegExp test => test char
  | TermString s => bool_decide (s = [char])
  end.

(** The inner function [openString]; [stringOpen] is [false] ([None]) or
    the quote character that opened the string. *)
Definition openString (char : ascii) (prevChar stringOpen : option ascii)
    : option ascii :=
  if bool_decide (prevChar = Some backslash) then stringOpen
  else if bool_decide (stringOpen = Some char) then None
  else if bool_decide (stringOpen = None) then Some char
  else stringOpen.

Definition bracketsOf (char : ascii) : option str :=
  match char with
  | "{" => Some OBJECT_BRACKETS
  | "[" => Some ARRAY_BRACKETS
  | "<" => Some GENERIC_BRACKETS
  | "(" => Some ROUND_BRACKETS
  | _ => None
  end%char.

Definition isQuote (char : ascii) : bool :=
  match char with
  | "'" | "`" | "034" => true
  | _ => false
  end%char.

(** The [while] loop of [goTo].  Every iteration moves [offset] forward,
    so [fuel] above the length of the text is never used up
    ([goTo_loop_fuel]). *)
Fixpoint goTo_loop (fuel : nat) (src : str) (term : Term) (offset : Z)
    (prevChar stringOpen : option ascii) : Result Z :=
  match fuel with
  | O => Ok (-1)
  | S fuel' =>
      match charAt src offset with
      | None => Ok (-1)
      | Some char =>
          if bool_decide (stringOpen = None) && termMatches term char
          then Ok offset
          else
            match bracketsOf char with
            | Some brackets =>
                offset' <- findClosing src offset brackets ;;
                goTo_loop fuel' src term (offset' + 1) (Some char) stringOpen
            | None =>
                let stringOpen' :=
                  if isQuote char then openString char prevChar stringOpen
                  else stringOpen in
                goTo_loop fuel' src term (offset + 1) (Some char) stringOpen'
            end
      end
  end.

Definition goTo (src : str) (term : Term) (offset : Z) : Result Z :=
  goTo_loop (S (length src)) src term offset None None.

(** [trim ? chunk.trim() : chunk], the chunk [split] pushes. *)
Definition pushed (trimmed : bool) (chunk : str) : str :=
  if trimmed then trim chunk else chunk.

(** The [do ... while] loop of [split]; [start] grows at every round, so
    the loop is left by its own test before the fuel is used up
    ([split_loop_spec]). *)
Fixpoint split_loop (fuel : nat) (src : str) (term : Term) (trimmed : bool)
    (start : Z) (chunks : list str) : Result (list str) :=
  match fuel with
  | O => Ok chunks
  | S fuel' =>
      comma <- goTo src term start ;;
      let chunk := if comma =? -1 then substr src start
                   else slice src start comma in
      let chunks' := chunks ++ [pushed trimmed chunk] in
      let start' := comma + 1 in
      if 0 <? start' then split_loop fuel' src term trimmed start' chunks'
      else Ok chunks'
  end.

Definition split (src : str) (term : Term) (trimmed : bool) : Result (list str) :=
  split_loop (S (S (length src))) src term trimmed 0 [].

(** [regExpClosestIndexOf], for the one-character alternations the parser
    passes ([/,|:/], [/;|:|\(/], [/;|:/]): [found] is the character. *)
Record FoundMatch := { fm_index : Z; fm_found : option ascii }.

Fixpoint regExpClosestIndexOf_loop (term : ascii -> bool) (rest : str)
    (offset : Z) : FoundMatch :=
  match rest with
  | [] => {| fm_index := -1; fm_found := None |}
  | char :: rest' =>
      if term char then {| fm_index := offset; fm_found := Some char |}
      else regExpClosestIndexOf_loop term rest' (offset + 1)
  end.

Definition regExpClosestIndexOf (src : str) (term : ascii -> bool)
    (offset : Z) : FoundMatch :=
  if offset <? 0 then {| fm_index := -1; fm_found := None |}
  else regExpClosestIndexOf_loop term (drop (Z.to_nat offset) src) offset.

(** [getPropertyNoType(src, from, to)]: the last word is the name, the
    words before it are the modifiers. *)
Record PropertyConfig := { pc_name : str; pc_modifiers : list str }.

Definition getPropertyNoType (src : str) (from to : Z) : PropertyConfig :=
  let modifiers := splitChar " "%char (slice src from to) in
  {| pc_name := List.last modifiers []; pc_modifiers := removelast modifiers |}.

(** ** The type resolver *)

Definition TYPES_STRING : str := lit "String".
Definition TYPES_OBJECT : str := lit "Object".
Definition TYPES_ARRAY : str := lit "Array".

(** [hay.indexOf(needle) !== -1] *)
Definition includes (hay needle : str) : bool :=
  negb (indexOf hay needle 0 =? -1).

(** [indexOf] turns a [null] argument into the text [null]. *)
Definition toStringArg (type : option str) : str :=
  match type with
  | Some s => s
  | None => lit "null"
  end.

Definition IS_PRIMITIVE (type : option str) : bool :=
  includes (lit "boolean|number|string|object") (toStringArg type).

Definition IS_IGNORED (type : str) : bool :=
  includes (lit "void|null|undefined|never") type.

(** JavaScript truthiness of [null] or a string. *)
Definition truthy (type : option str) : bool :=
  match type with
  | Some (_ :: _) => true
  | _ => false
  end.

(** The callback of [types.reduce]: the source names the accumulator
    [type] and the current member [result]. *)
Definition reduceStep (type : option str) (result : str) : option str :=
  if bool_decide (result = TYPES_OBJECT) || negb (truthy type) then Some result
  else if IS_IGNORED result then type
  else if bool_decide (Some result <> type) then Some TYPES_OBJECT
  else type.

Definition reduceTypes (types : list str) : option str :=
  fold_left reduceStep types None.

(** [c.toUpperCase()] on one character; it is only reached with a
    character of the keyword list, where it is the ASCII rule. *)
Definition toUpperCase (c : ascii) : ascii :=
  let n := nat_of_ascii c in
  if (97 <=? n)%nat && (n <=? 122)%nat then ascii_of_nat (n - 32) else c.

(** [type.charAt(0).toUpperCase() + type.substr(1)] *)
Definition capitalize (type : str) : str :=
  match type with
  | [] => []
  | c :: rest => toUpperCase c :: rest
  end.

(** What [getType] does with the member list once the scan is over:
    the reduction, then the capital letter of a primitive. *)
Definition resolveTypes (types : list str) : option str :=
  let type := reduceTypes types in
  if IS_PRIMITIVE type then option_map capitalize type else type.

Record FoundType := { ft_type : option str; ft_end : Z }.

Definition pushType (types : list str) (type : str) : list str :=
  if 0 <? len type then types ++ [type] else types.

(** How the scanning loop of [getType] ends: it falls through with the
    members and the cursor, or it returns on the spot. *)
Inductive TypeScan :=
| ScanDone (types : list str) (index : Z)
| ScanReturn (found : FoundType).

Definition nonSpace : Term := TermRegExp (fun c => negb (is_space c)).

(** The [while (!done && (char = src.charAt(index)))] loop.  The quote
    case can send the cursor back to offset 0 (when [indexOf] answers
    [-1]), so the loop needs fuel.  The case of the source for the empty
    character cannot be taken: the loop condition has already left on
    it. *)
Fixpoint getType_loop (fuel : nat) (src : str) (start index : Z)
    (types : list str) : Fuelled TypeScan :=
  match fuel with
  | O => None
  | S fuel' =>
      match charAt src index with
      | None => retF (ScanDone types index)
      | Some char =>
          match char with
          | ")"%char | ","%char | ";"%char =>
              let type := trim (slice src start index) in
              retF (ScanDone (pushType types type) index)
          | "{"%char =>
              let types := types ++ [TYPES_OBJECT] in
              index <~ liftR (findClosing src index OBJECT_BRACKETS) ;;
              getType_loop fuel' src (index + 1) (index + 1) types
          | "["%char =>
              let types := types ++ [TYPES_ARRAY] in
              index <~ liftR (findClosing src index ARRAY_BRACKETS) ;;
              getType_loop fuel' src (index + 1) (index + 1) types
          | "<"%char =>
              let type := trim (slice src start index) in
              let types := pushType types type in
              index <~ liftR (findClosing src index GENERIC_BRACKETS) ;;
              if index =? -1
              then retF (ScanReturn {| ft_type := None; ft_end := -1 |})
              else getType_loop fuel' src (index + 1) (index + 1) types
          | "034"%char =>
              let types := types ++ [TYPES_STRING] in
              let index := indexOf src [dquote] (index + 1) in
              getType_loop fuel' src (index + 1) (index + 1) types
          | "|"%char | "&"%char =>
              let type := trim (slice src start index) in
              getType_loop fuel' src (index + 1) (index + 1) (pushType types type)
          | _ => getType_loop fuel' src start (index + 1) types
          end
      end
  end.

Definition getType (fuel : nat) (src : str) (offset : Z) : Fuelled FoundType :=
  start <~ liftR (goTo src nonSpace offset) ;;
  scan <~ getType_loop fuel src start start [] ;;
  match scan with
  | ScanReturn found => retF found
  | ScanDone types index =>
      retF {| ft_type := resolveTypes types; ft_end := index |}
  end.

(** ** Regular expressions

    A backtracking matcher for the fragment of JavaScript regular
    expressions the parser uses: literals, character classes, sequence,
    alternation, the greedy option, greedy and lazy repetition of a
    class, numbered capture groups, and the end of the text ([$] without
    the [m] flag).  Alternatives and repetitions
    are tried in the order of the language (first alternative first,
    longest first for greedy, shortest first for lazy) and the
    continuation [k] is what makes a later failure come back to the next
    choice. *)

Inductive RegExp :=
| RLit (s : str)
| RClass (p : ascii -> bool)
| RSeq (r1 r2 : RegExp)
| RAlt (r1 r2 : RegExp)
| ROpt (r : RegExp)
| RStar (greedy : bool) (p : ascii -> bool)
| RPlus (greedy : bool) (p : ascii -> bool)
| RGroup (n : nat) (r : RegExp)
| REnd.

Definition rseq (rs : list RegExp) : RegExp := foldr RSeq (RLit []) rs.

Section Matcher.
Context {A : Type}.

Definition orElse (x y : option A) : option A :=
  match x with
  | Some _ => x
  | None => y
  end.

Fixpoint matchStar (greedy : bool) (p : ascii -> bool) (rest : str)
    (k : str -> option A) : option A :=
  match rest with
  | c :: rest' =>
      if p c then
        if greedy then orElse (matchStar greedy p rest' k) (k rest)
        else orElse (k rest) (matchStar greedy p rest' k)
      else k rest
  | [] => k rest
  end.

Fixpoint matchRe (r : RegExp) (rest : str) (caps : gmap nat str)
    (k : str -> gmap nat str -> option A) : option A :=
  match r with
  | RLit s =>
      if starts_with s rest then k (drop (length s) rest) caps else None
  | RClass p =>
      match rest with
      | c :: rest' => if p c then k rest' caps else None
      | [] => None
      end
  | RSeq r1 r2 =>
      matchRe r1 rest caps (fun rest' caps' => matchRe r2 rest' caps' k)
  | RAlt r1 r2 => orElse (matchRe r1 rest caps k) (matchRe r2 rest caps k)
  | ROpt r1 => orElse (matchRe r1 rest caps k) (k rest caps)
  | RStar greedy p => matchStar greedy p rest (fun rest' => k rest' caps)
  | RPlus greedy p =>
      match rest with
      | c :: rest' =>
          if p c then matchStar greedy p rest' (fun rest'' => k rest'' caps)
          else None
      | [] => None
      end
  | RGroup n r1 =>
      matchRe r1 rest caps (fun rest' caps' =>
        k rest' (<[n := take (length rest - length rest') rest]> caps'))
  | REnd =>
      match rest with
      | [] => k rest caps
      | _ :: _ => None
      end
  end.
End Matcher.

(** A match: [m_index] is [match.index], [m_text] is [match[0]] and
    [m_groups !! n] is [match[n]] ([None] for an undefined group). *)
Record Match := { m_index : Z; m_text : str; m_groups : gmap nat str }.

Definition matchAt (r : RegExp) (rest : str) (pos : Z) : option Match :=
  matchRe r rest ∅ (fun rest' caps =>
    Some {| m_index := pos;
            m_text := take (length rest - length rest') rest;
            m_groups := caps |}).

(** The leftmost match at or after the head of [rest]. *)
Fixpoint searchFrom (r : RegExp) (rest : str) (pos : Z) : option Match :=
  match matchAt r rest pos with
  | Some m => Some m
  | None =>
      match rest with
      | [] => None
      | _ :: rest' => searchFrom r rest' (pos + 1)
      end
  end.

(** [src.match(r)] for a regular expression without the [g] flag. *)
Definition strMatch (src : str) (r : RegExp) : option Match := searchFrom r src 0.

Definition group (m : Match) (n : nat) : str := default [] (m_groups m !! n).

(** [src.replace(r, callback)] for a regular expression with the [g]
    flag.  The callback sees the match and threads the tables [St] it
    writes to; the text between matches is copied.  After an empty match
    the search moves on by one character. *)
Fixpoint replaceAll_loop {St : Type} (fuel : nat) (r : RegExp)
    (callback : St -> Match -> Result (St * str))
    (rest : str) (pos : Z) (st : St) (out : str) : Result (St * str) :=
  match fuel with
  | O => Ok (st, out ++ rest)
  | S fuel' =>
      match searchFrom r rest pos with
      | None => Ok (st, out ++ rest)
      | Some m =>
          let skipped := Z.to_nat (m_index m - pos) in
          let before := take skipped rest in
          let after := drop (skipped + length (m_text m)) rest in
          res <- callback st m ;;
          let '(st', replacement) := res in
          match m_text m, drop skipped rest with
          | [], c :: after' =>
              replaceAll_loop fuel' r callback after' (m_index m + 1) st'
                (out ++ before ++ replacement ++ [c])
          | [], [] => Ok (st', out ++ before ++ replacement)
          | _, _ =>
              replaceAll_loop fuel' r callback after
                (m_index m + len (m_text m)) st'
                (out ++ before ++ replacement)
          end
      end
  end.

Definition replaceAll {St : Type} (src : str) (r : RegExp)
    (callback : St -> Match -> Result (St * str)) (st : St) : Result (St * str) :=
  replaceAll_loop (S (length src)) r callback src 0 st [].

(** [src.replace(r, replacement)] without the [g] flag: the first match. *)
Definition replaceFirst (src : str) (r : RegExp) (replacement : str) : str :=
  match strMatch src r with
  | None => src
  | Some m =>
      take (Z.to_nat (m_index m)) src ++ replacement ++
      drop (Z.to_nat (m_index m) + length (m_text m)) src
  end.



(** Character classes. *)
Definition isWord (c : ascii) : bool :=
  let n := nat_of_ascii c in
  ((48 <=? n) && (n <=? 57) || (65 <=? n) && (n <=? 90) ||
   (97 <=? n) && (n <=? 122) || (n =? 95))%nat.

Definition anyChar (c : ascii) : bool := true.

(** [.]: any character but a line terminator. *)
Definition dot (c : ascii) : bool :=
  match c with
  | "010" | "013" => false
  | _ => true
  end%char.

Definition oneOf (cs : str) (c : ascii) : bool := bool_decide (c ∈ cs).

(** ** The declaration extractor *)

Record ParamConfig := { p_name : str; p_type : option str }.

(** The values a field descriptor holds: [true] for a modifier flag, a
    string for the name and the type, the parameter list. *)
Inductive FieldValue :=
| VTrue
| VString (s : str)
| VParams (ps : list ParamConfig).

(** [obj[key] = value] on an object that started as [{}].  The maps of
    the embedding hold the own properties of the object: every key
    becomes one, except [__proto__], which is the accessor of the
    prototype and leaves the own properties as they are. *)
Definition setKey {V : Type} (key : str) (value : V) (obj : gmap str V)
    : gmap str V :=
  if bool_decide (key = lit "__proto__") then obj else <[key := value]> obj.

(** [arrToObject(arr, value)] *)
Definition arrToObject (arr : list str) (value : FieldValue)
    : gmap str FieldValue :=
  foldl (fun obj key => setKey key value obj) ∅ arr.

(** [buildField(mods, name, params, type)]: in [Object.assign] the keys
    of [config] win over the modifier flags. *)
Definition buildField (mods : list str) (name : str)
    (params : option (list ParamConfig)) (type : option str)
    : gmap str FieldValue :=
  let config : gmap str FieldValue := {[ lit "name" := VString name ]} in
  let config :=
    match params with
    | Some ps => <[lit "params" := VParams ps]> config
    | None => config
    end in
  let config :=
    if truthy type then <[lit "type" := VString (toStringArg type)]> config
    else config in
  config ∪ arrToObject mods VTrue.

(** The [while (from < to)] loop of [parseParams]. *)
Fixpoint parseParams_loop (fuel : nat) (src : str) (from to : Z)
    (params : list ParamConfig) : Fuelled (list ParamConfig) :=
  match fuel with
  | O => None
  | S fuel' =>
      if negb (from <? to) then retF params
      else
        let firstStop := regExpClosestIndexOf src (oneOf (lit ",:")) from in
        if fm_index firstStop =? -1 then
          retF (params ++ [{| p_name := trim (slice src from to); p_type := None |}])
        else
          let name := trim (slice src from (fm_index firstStop)) in
          if bool_decide (fm_found firstStop = Some ":"%char) then
            found <~ getType fuel' src (fm_index firstStop + 1) ;;
            let param :=
              {| p_name := name;
                 p_type := if truthy (ft_type found) then ft_type found else None |} in
            parseParams_loop fuel' src (ft_end found + 1) to (params ++ [param])
          else
            parseParams_loop fuel' src (fm_index firstStop + 1) to
              (params ++ [{| p_name := name; p_type := None |}])
  end.

Definition parseParams (fuel : nat) (src : str) (from to : Z)
    : Fuelled (list ParamConfig) :=
  parseParams_loop fuel src from to [].

Record DTSParsedData := {
  className : str;
  parent : option str;
  properties : list (gmap str FieldValue);
  methods : list (gmap str FieldValue)
}.

(** [/[\s\n]class ([\w$_]+)(?:[\s]+extends ([^{]+))?[\s]*\{/] *)
Definition classHeader : RegExp :=
  rseq [ RClass is_space; RLit (lit "class ");
         RGroup 1 (RPlus true (fun c => isWord c || bool_decide (c = "$"%char)));
         ROpt (rseq [ RPlus true is_space; RLit (lit "extends ");
                      RGroup 2 (RPlus true (fun c => negb (bool_decide (c = "{"%char)))) ]);
         RStar true is_space; RLit (lit "{") ].

(** One round of the [for] loop of [parseDTS], from the cursor [ptr] of
    the loop test: [None] for the [break] at the closing brace, or the
    cursor at the end of the round (before the post-action [++ptr]),
    whether the member is a method, and its descriptor. *)
Definition parseDTS_round (fuel : nat) (src : str) (ptr : Z)
    : Fuelled (option (Z * bool * gmap str FieldValue)) :=
  from <~ liftR (goTo src nonSpace ptr) ;;
  if bool_decide (charAt src from = Some "}"%char) then retF None
  else
    let stop := regExpClosestIndexOf src (oneOf (lit ";:(")) from in
    let ptr := fm_index stop in
    let pc := getPropertyNoType src from ptr in
    let name := pc_name pc in
    let modifiers := pc_modifiers pc in
    if bool_decide (fm_found stop = Some "("%char) then
      end_ <~ liftR (findClosing src ptr ROUND_BRACKETS) ;;
      params <~ parseParams fuel src (ptr + 1) end_ ;;
      let closing := regExpClosestIndexOf src (oneOf (lit ";:")) end_ in
      let ptr := fm_index closing + 1 in
      if bool_decide (fm_found closing = Some ";"%char) then
        retF (Some (ptr, true, buildField modifiers name (Some params) None))
      else
        found <~ getType fuel src (ptr + 1) ;;
        let ptr := indexOf src (lit ";") (ft_end found) in
        retF (Some (ptr, true,
                    buildField modifiers name (Some params) (ft_type found)))
    else if bool_decide (fm_found stop = Some ";"%char) then
      retF (Some (ptr, false, buildField modifiers name None None))
    else
      found <~ getType fuel src (ptr + 1) ;;
      let ptr := indexOf src (lit ";") (ft_end found) in
      retF (Some (ptr, false, buildField modifiers name None (ft_type found))).

(** The [for] loop of [parseDTS]; [ptr] is the cursor at the loop test
    [ptr < end]. *)
Fixpoint parseDTS_loop (fuel : nat) (src : str) (ptr : Z)
    (properties methods : list (gmap str FieldValue))
    : Fuelled (list (gmap str FieldValue) * list (gmap str FieldValue)) :=
  match fuel with
  | O => None
  | S fuel' =>
      if negb (ptr <? len src) then retF (properties, methods)
      else
        round <~ parseDTS_round fuel' src ptr ;;
        match round with
        | None => retF (properties, methods)
        | Some (ptr, true, field) =>
            parseDTS_loop fuel' src (ptr + 1) properties (methods ++ [field])
        | Some (ptr, false, field) =>
            parseDTS_loop fuel' src (ptr + 1) (properties ++ [field]) methods
        end
  end.

Definition parseDTS (fuel : nat) (src : str) : Fuelled DTSParsedData :=
  match strMatch src classHeader with
  | None => Some (Throw NoClassFound)
  | Some m =>
      let start := m_index m + len (m_text m) in
      members <~ parseDTS_loop fuel src start [] [] ;;
      let '(properties, methods) := members in
      retF {| className := group m 1; parent := m_groups m !! 2%nat;
              properties := properties; methods := methods |}
  end.

(** ** The compiled-source extractor *)

Record Decorator := {
  d_src : str;
  d_name : str;
  d_params : option str;
  d_descriptor : option str
}.

(** The tables the replacer callbacks write to. *)
Record Tables := {
  decorators : gmap str (list Decorator);
  annotations : gmap str (list Decorator)
}.

(** The characters that are syntax in the source of a regular
    expression; every other character stands for itself. *)
Definition isSyntaxChar (c : ascii) : bool :=
  bool_decide (c ∈ lit "^$\.*+?()[]{}|").

(** A property or method name spliced into the source of a pattern: the
    name is read as a regular expression.  [$] is the end of the text, a
    character that is not syntax stands for itself, and [?] after such a
    character makes it optional (as in [x?], the name of an optional
    member).  Everything else (classes, groups, escapes, other
    quantifiers) is outside of the embedding: [None]. *)
Fixpoint nameSource (name : str) : option RegExp :=
  match name with
  | [] => Some (RLit [])
  | c :: rest =>
      if bool_decide (c = "$"%char) then RSeq REnd <$> nameSource rest
      else if isSyntaxChar c then None
      else
        match rest with
        | "?"%char :: rest' => RSeq (ROpt (RLit [c])) <$> nameSource rest'
        | _ => RSeq (RLit [c]) <$> nameSource rest
        end
  end.

(** [names.join("|")] inside the parentheses of a pattern. *)
Fixpoint alternation (names : list str) : option RegExp :=
  match names with
  | [] => Some (RLit [])
  | [name] => nameSource name
  | name :: names' =>
      r1 ← nameSource name; r2 ← alternation names'; Some (RAlt r1 r2)
  end.

(** The name and the execution parameters of one entry of a decorator
    list: the text before the first [(] and the text between it and the
    last character. *)
Definition readDecorator (descriptor : option str) (decor : str) : Decorator :=
  let ptr := indexOf decor (lit "(") 0 in
  if negb (ptr =? -1) then
    {| d_src := decor; d_name := slice decor 0 ptr;
       d_params := Some (slice decor (ptr + 1) (len decor - 1));
       d_descriptor := descriptor |}
  else
    {| d_src := decor; d_name := decor; d_params := None;
       d_descriptor := descriptor |}.

(** The [for] loop over the entries, with its two [push] targets. *)
Fixpoint classify (definedAnnotations : list str) (descriptor : option str)
    (decors : list str) (usedDecorators usedAnnotations : list Decorator)
    : list Decorator * list Decorator :=
  match decors with
  | [] => (usedDecorators, usedAnnotations)
  | decor :: decors' =>
      let d := readDecorator descriptor decor in
      if bool_decide (d_name d ∈ definedAnnotations) then
        classify definedAnnotations descriptor decors'
          usedDecorators (usedAnnotations ++ [d])
      else
        classify definedAnnotations descriptor decors'
          (usedDecorators ++ [d]) usedAnnotations
  end.

(** The replacer of [fieldDecoratorsAnalyzer], on the four groups of a
    match. *)
Definition fieldDecorators (definedAnnotations : list str) (t : Tables)
    (definition proto name descriptor : str) : Result (Tables * str) :=
  let definition := trim definition in
  decors <- split definition (TermString (lit ",")) true ;;
  let '(usedDecorators, usedAnnotations) :=
    classify definedAnnotations (Some descriptor) decors [] [] in
  let t' := {| decorators := setKey name usedDecorators (decorators t);
               annotations := setKey name usedAnnotations (annotations t) |} in
  if (length usedDecorators =? 0)%nat then Ok (t', [])
  else Ok (t', [newline] ++ lit "__decorate([" ++
                 join (lit ",") (map d_src usedDecorators) ++
                 lit "], " ++ proto ++ lit ", " ++ [dquote] ++ name ++
                 [dquote] ++ lit ", " ++ descriptor ++ lit ");").

(** [[\s]*__decorate\(\[([\W\w]*?)], (C\.prototype), "(.*?)", (.*?)\);]
    The class name [C] is put into this pattern and the ones below as
    literal text: a name of letters, digits and underscores stands for
    itself. *)
Definition fieldDecoratorsPattern (className : str) : RegExp :=
  rseq [ RStar true is_space; RLit (lit "__decorate([");
         RGroup 1 (RStar false anyChar); RLit (lit "], ");
         RGroup 2 (RLit (className ++ lit ".prototype"));
         RLit (lit ", " ++ [dquote]); RGroup 3 (RStar false dot);
         RLit ([dquote] ++ lit ", "); RGroup 4 (RStar false dot);
         RLit (lit ");") ].

Definition fieldDecoratorsAnalyzer (definedAnnotations : list str)
    (t : Tables) (m : Match) : Result (Tables * str) :=
  fieldDecorators definedAnnotations t (group m 1) (group m 2) (group m 3)
    (group m 4).

(** The replacer of [classDecoratorsAnalyzer]; it also rewrites its own
    [generatedName] variable. *)
Definition classDecorators (definedAnnotations : list str) (className : str)
    (st : Tables * option str) (definition : str)
    : Result ((Tables * option str) * str) :=
  let '(t, generatedName) := st in
  let definition := trim definition in
  decors <- split definition (TermString (lit ",")) true ;;
  let '(usedDecorators, usedAnnotations) :=
    classify definedAnnotations None decors [] [] in
  let t' := {| decorators := <[lit "class" := usedDecorators]> (decorators t);
               annotations := <[lit "class" := usedAnnotations]> (annotations t) |} in
  if (length usedDecorators =? 0)%nat then Ok ((t', generatedName), [])
  else
    let generatedName' :=
      if truthy generatedName then toStringArg generatedName ++ lit " = "
      else [] in
    Ok ((t', Some generatedName'),
        [newline] ++ className ++ lit " = " ++ generatedName' ++
        lit "__decorate([" ++ join (lit ",") (map d_src usedDecorators) ++
        lit "], " ++ className ++ lit ");").

(** [[\s]*C = (?:.*? = )?__decorate\(\[([\W\w]*?)], (C)\);] *)
Definition classDecoratorsPattern (className : str) : RegExp :=
  rseq [ RStar true is_space; RLit (className ++ lit " = ");
         ROpt (rseq [ RStar false dot; RLit (lit " = ") ]);
         RLit (lit "__decorate(["); RGroup 1 (RStar false anyChar);
         RLit (lit "], "); RGroup 2 (RLit className); RLit (lit ");") ].

Definition classDecoratorsAnalyzer (definedAnnotations : list str)
    (className : str) (st : Tables * option str) (m : Match)
    : Result ((Tables * option str) * str) :=
  classDecorators definedAnnotations className st (group m 1).

(** The replacer of [methodsAnalyzer]: [src] is the whole compiled
    source, [boiler] the first group, [name] the second and [index] the
    offset of the match. *)
Definition methodBody (src : str) (methodBodies : gmap str str)
    (boiler name : str) (index : Z) : Result (gmap str str) :=
  end_ <- findClosing src (indexOf src (lit "{") (index + len boiler))
            OBJECT_BRACKETS ;;
  Ok (setKey name (trim (slice src (index + len boiler) (end_ + 1))) methodBodies).



(** [((m1|m2))\(.*?\) {] for native classes and
    [(C.prototype.(m1|m2) = function ?)\(.*?\) {] otherwise; the two
    dots of the latter are unescaped in the source. *)
Definition methodsPattern (isES6 : bool) (className : str)
    (methodsList : list str) : option RegExp :=
  names ← alternation methodsList;
  let tail := [ RLit (lit "("); RStar false dot; RLit (lit ") {") ] in
  Some
    (if isES6 then rseq (RGroup 1 (RGroup 2 names) :: tail)
     else rseq (RGroup 1 (rseq [ RLit className; RClass dot;
                                 RLit (lit "prototype"); RClass dot;
                                 RGroup 2 names;
                                 RLit (lit " = function"); ROpt (RLit (lit " ")) ])
                :: tail)).

Definition methodsAnalyzer (src : str) (methodBodies : gmap str str)
    (m : Match) : Result (gmap str str * str) :=
  methodBodies' <- methodBody src methodBodies (group m 1) (group m 2) (m_index m) ;;
  Ok (methodBodies', m_text m).

(** [this\.(p1|p2) = G;\n], where [G] is a group around a greedy [.*]. *)
Definition defaultValuePattern (propertiesList : list str) : option RegExp :=
  names ← alternation propertiesList;
  Some (rseq [ RLit (lit "this."); RGroup 1 names;
               RLit (lit " = "); RGroup 2 (RStar true dot);
               RLit (lit ";" ++ [newline]) ]).

Definition defaultValueAnalyzer (values : gmap str str) (m : Match)
    : Result (gmap str str * str) :=
  Ok (setKey (group m 1) (group m 2) values, group m 2).

(** [__extends(C, _super);] as a pattern: the parentheses are a group. *)
Definition removeExtendPattern (className : str) : RegExp :=
  rseq [ RLit (lit "__extends"); RGroup 1 (RLit (className ++ lit ", _super"));
         RLit (lit ";") ].

Record ClassBody := {
  cb_isES6 : bool;
  cb_start : Z;
  cb_end : Z;
  cb_generatedName : option str
}.

(** [var C = \(function \((?:_super)?\) {] *)
Definition es5Header (className : str) : RegExp :=
  rseq [ RLit (lit "var " ++ className ++ lit " = (function (");
         ROpt (RLit (lit "_super")); RLit (lit ") {") ].

(** [(?:let G = )?class C(?: extends .+?)? {], where [G] is a group
    around [C] and a greedy run of non-space characters. *)
Definition es6Header (className : str) : RegExp :=
  rseq [ ROpt (rseq [ RLit (lit "let ");
                      RGroup 1 (rseq [ RLit className;
                                       RStar true (fun c => negb (is_space c)) ]);
                      RLit (lit " = ") ]);
         RLit (lit "class " ++ className);
         ROpt (rseq [ RLit (lit " extends "); RPlus false dot ]);
         RLit (lit " {") ].

Definition findClassBody (src className : str) : Result ClassBody :=
  let found :=
    match strMatch src (es5Header className) with
    | Some m => Some (false, m)
    | None =>
        match strMatch src (es6Header className) with
        | Some m => Some (true, m)
        | None => None
        end
    end in
  match found with
  | None => Throw NoClassFound
  | Some (isES6, m) =>
      let start := m_index m in
      end_ <- findClosing src (start + len (m_text m)) OBJECT_BRACKETS ;;
      end_ <- (if isES6 then Ok end_
               else findClosing src (indexOf src (lit "(") end_) ROUND_BRACKETS) ;;
      Ok {| cb_isES6 := isES6; cb_start := start;
            cb_end := indexOf src (lit ";") end_;
            cb_generatedName := m_groups m !! 1%nat |}
  end.

Definition findConstructor (isES6 : bool) (className src : str)
    (classStart : Z) : Result (Z * Z) :=
  let constructorPattern :=
    if isES6 then lit "constructor(" else lit "function " ++ className ++ lit "(" in
  let start := indexOf src constructorPattern classStart in
  end_ <- findClosing src (start + len constructorPattern - 1) ROUND_BRACKETS ;;
  let end_ := indexOf src (lit "{") end_ in
  end_ <- findClosing src end_ OBJECT_BRACKETS ;;
  Ok (start, end_).

Record JSParsedData := {
  generatedName : option str;
  values : gmap str str;
  methodBodies : gmap str str;
  js_decorators : gmap str (list Decorator);
  js_annotations : gmap str (list Decorator);
  js_src : str
}.

(** The [name] of a field descriptor, as [join] writes it: a missing
    name gives the empty text, [true] its word, and a list of objects
    the text of every object. *)
Definition fieldName (field : gmap str FieldValue) : str :=
  match field !! lit "name" with
  | Some (VString s) => s
  | Some VTrue => lit "true"
  | Some (VParams ps) =>
      join (lit ",") (map (fun _ => lit "[object Object]") ps)
  | None => []
  end.

(** [parseJS].  The answer is [None] when a property or a method name
    is outside of what [nameSource] reads. *)
Definition parseJS (src : str) (dtsData : DTSParsedData)
    (definedAnnotations : list str) : Fuelled JSParsedData :=
  let className := className dtsData in
  body <~ liftR (findClassBody src className) ;;
  let isES6 := cb_isES6 body in
  ctor <~ liftR (findConstructor isES6 className src (cb_start body)) ;;
  let '(constructorStart, constructorEnd) := ctor in
  (* default values *)
  valuesPattern <~
    Ok <$> defaultValuePattern (map fieldName (properties dtsData)) ;;
  vals <~ liftR (replaceAll (slice src (constructorStart + 1) constructorEnd)
                   valuesPattern defaultValueAnalyzer ∅) ;;
  (* method bodies *)
  bodiesPattern <~
    Ok <$> methodsPattern isES6 className (map fieldName (methods dtsData)) ;;
  bodies <~ liftR (replaceAll
                     (replaceFirst src (removeExtendPattern className) [])
                     bodiesPattern (methodsAnalyzer src) ∅) ;;
  (* decorators *)
  let decorStart := indexOf src (lit "__decorate([") constructorEnd in
  fields <~ liftR (replaceAll (substr src decorStart)
                     (fieldDecoratorsPattern className)
                     (fieldDecoratorsAnalyzer definedAnnotations)
                     {| decorators := ∅; annotations := ∅ |}) ;;
  classes <~ liftR (replaceAll (snd fields) (classDecoratorsPattern className)
                      (classDecoratorsAnalyzer definedAnnotations className)
                      (fst fields, cb_generatedName body)) ;;
  let t := fst (fst classes) in
  retF {| generatedName := cb_generatedName body; values := fst vals;
          methodBodies := fst bodies; js_decorators := decorators t;
          js_annotations := annotations t;
          js_src := slice src 0 decorStart ++ snd classes |}.

(** ** The nesting counter of the specification

    [segment src a b] is the text at offsets [a] to [b - 1], and
    [nestingAt o c src offset k] the counter after the characters at
    [offset + 1] to [k] have been read: one for the bracket at [offset],
    plus one for every [o], minus one for every [c]. *)

Definition countChar (c : ascii) (seg : str) : Z :=
  Z.of_nat (length (filter (fun x => x = c) seg)).

Definition segment (src : str) (a b : Z) : str :=
  take (Z.to_nat (b - a)) (drop (Z.to_nat a) src).

(** What a stretch of text adds to the counter. *)
Definition delta (o c : ascii) (seg : str) : Z :=
  countChar o seg - countChar c seg.

Definition nestingAt (o c : ascii) (src : str) (offset k : Z) : Z :=
  1 + countChar o (segment src (offset + 1) (k + 1))
    - countChar c (segment src (offset + 1) (k + 1)).

(** ** The top level of a text, in the words of the specification

    A separator is at top level when it stands outside of every bracket
    pair and outside of every string literal.  [Lexer] is a reader that
    knows both: the closing characters it still waits for (innermost
    first), the quote of the string literal it is in, and whether the
    character before was a backslash (which makes a quote an ordinary
    character). *)



Definition closerOf (c : ascii) : option ascii :=
  match c with
  | "{" => Some "}"
  | "[" => Some "]"
  | "(" => Some ")"
  | "<" => Some ">"
  | _ => None
  end%char.

Definition isCloser (c : ascii) : bool :=
  match c with
  | "}" | "]" | ")" | ">" => true
  | _ => false
  end%char.

Definition isQuoteMark (c : ascii) : bool :=
  match c with
  | "'" | "`" | "034" => true
  | _ => false
  end%char.










(** The characters the [switch] of [getType] has no case for. *)
Definition plainTypeChar (c : ascii) : bool :=
  negb (bool_decide (c ∈ lit "),;{[<|&" ++ [dquote])).

(** A character at which [goTo] neither stops nor changes its state: it
    is not the target, not an opening bracket and not a quote. *)
Definition plainScanChar (term : Term) (c : ascii) : bool :=
  negb (termMatches term c) && bool_decide (bracketsOf c = None) &&
  negb (isQuote c).

(** A stretch of text in which every [c] closes an earlier [o], and every
    [o] is closed. *)
Definition balanced (o c : ascii) (inner : str) : Prop :=
  delta o c inner = 0 /\ forall n : nat, 0 <= delta o c (take n inner).

(** A character that is neither an opening bracket nor a quote. *)
Definition noBracketNoQuote (c : ascii) : bool :=
  bool_decide (bracketsOf c = None) && negb (isQuote c).

(** An untyped parameter. *)
Definition untyped (name : str) : ParamConfig :=
  {| p_name := trim name; p_type := None |}.

(** The characters that end a type expression. *)
Definition isTerminator (c : ascii) : bool := oneOf (lit "),;") c.

(** ** Example texts *)

(** [{ x = "}" }]: a closing brace inside a string literal. *)
Definition quotedClose : str :=
  lit "{ x = " ++ [dquote] ++ lit "}" ++ [dquote] ++ lit " }".

(** ["{" ;], ["{";}] and ["x" ;]: an opening brace inside a string
    literal, then a semicolon outside of it. *)
Definition quotedOpen : str := [dquote] ++ lit "{" ++ [dquote] ++ lit " ;".
Definition quotedOpenThenClose : str := [dquote] ++ lit "{" ++ [dquote] ++ lit ";}".
Definition quotedLetter : str := [dquote] ++ lit "x" ++ [dquote] ++ lit " ;".

Definition comma : Term := TermString (lit ",").
Definition semicolon : Term := TermString (lit ";").



(** The declaration text of the specification's example. *)
Definition classA : str :=
  lit "class A extends B { x: string; f(y: number): boolean; }".

(** [{ name: "x", type: "String" }] *)
Definition propertyX : gmap str FieldValue :=
  <[lit "type" := VString (lit "String")]> {[ lit "name" := VString (lit "x") ]}.

(** [{ name: "f", params: [{ name: "y", type: "Number" }], type: "Boolean" }] *)
Definition methodF : gmap str FieldValue :=
  <[lit "type" := VString (lit "Boolean")]>
    (<[lit "params" := VParams [{| p_name := lit "y"; p_type := Some (lit "Number") |}]]>
       {[ lit "name" := VString (lit "f") ]}).

(** A field-level decoration call, as the compiler writes it: the list
    holds [Notify()] and [Compute(fn)], the target is [A.prototype] and
    the field is [field]. *)
Definition fieldCall : str :=
  lit "__decorate([" ++ [newline] ++
  lit "    Notify()," ++ [newline] ++
  lit "    Compute(fn)" ++ [newline] ++
  lit "], A.prototype, " ++ [dquote] ++ lit "field" ++ [dquote] ++
  lit ", void 0);".



Definition noTables : Tables := {| decorators := ∅; annotations := ∅ |}.




(** The declaration model of the class [A] above. *)
Definition modelA : DTSParsedData :=
  {| className := lit "A"; parent := Some (lit "B ");
     properties := [propertyX]; methods := [methodF] |}.

(** The class [A] compiled in the native-class convention. *)
Definition nativeA : str :=
  lit "class A extends B {" ++ [newline] ++
  lit "    constructor() {" ++ [newline] ++
  lit "        super();" ++ [newline] ++
  lit "        this.x = 5;" ++ [newline] ++
  lit "    }" ++ [newline] ++
  lit "    f(y) { return { a: y }; }" ++ [newline] ++
  lit "}" ++ [newline] ++
  fieldCall ++ [newline].


(** The class [A] compiled in the prototype convention. *)
Definition prototypeA : str :=
  lit "var A = (function (_super) {" ++ [newline] ++
  lit "    __extends(A, _super);" ++ [newline] ++
  lit "    function A() {" ++ [newline] ++
  lit "        var _this = _super.call(this) || this;" ++ [newline] ++
  lit "        _this.x = 5;" ++ [newline] ++
  lit "        return _this;" ++ [newline] ++
  lit "    }" ++ [newline] ++
  lit "    A.prototype.f = function (y) { return { a: y }; };" ++ [newline] ++
  lit "    return A;" ++ [newline] ++
  lit "}(B));" ++ [newline] ++
  fieldCall ++ [newline].

(** The class [A] compiled in the native-class convention, without any
    decoration call. *)
Definition undecoratedA : str :=
  lit "class A extends B {" ++ [newline] ++
  lit "    constructor() {" ++ [newline] ++
  lit "        super();" ++ [newline] ++
  lit "        this.x = 5;" ++ [newline] ++
  lit "    }" ++ [newline] ++
  lit "    f(y) { return { a: y }; }" ++ [newline] ++
  lit "}" ++ [newline].



(** * Properties *)

(** ** Strings *)

Lemma charAt_Some (src : str) (i : Z) (char : ascii) :
  charAt src i = Some char -> 0 <= i < len src.
Proof.
  unfold charAt, len. destruct (i <? 0) eqn:Hi; [discriminate|].
  apply Z.ltb_ge in Hi. intros H. apply lookup_lt_Some in H. lia.
Qed.

Lemma charAt_None (src : str) (i : Z) :
  charAt src i = None -> i < 0 \/ len src <= i.
Proof.
  unfold charAt, len. destruct (i <? 0) eqn:Hi.
  - apply Z.ltb_lt in Hi. auto.
  - apply Z.ltb_ge in Hi. intros H. apply lookup_ge_None in H. lia.
Qed.

Lemma charAt_app (pre tail : str) (c : ascii) :
  charAt (pre ++ c :: tail) (len pre) = Some c.
Proof.
  unfold charAt, len. destruct (Z.of_nat (length pre) <? 0) eqn:H;
    [apply Z.ltb_lt in H; lia|].
  rewrite Nat2Z.id, lookup_app_r by lia. rewrite Nat.sub_diag. reflexivity.
Qed.

Lemma len_snoc (pre : str) (c : ascii) : len (pre ++ [c]) = len pre + 1.
Proof. unfold len. rewrite length_app. simpl. lia. Qed.

Lemma substr_0 (src : str) : substr src 0 = src.
Proof.
  unfold substr, relIndex. simpl. unfold len.
  replace (Z.to_nat (0 `min` Z.of_nat (length src))) with 0%nat by lia.
  reflexivity.
Qed.

Lemma length_drop_Z (src : str) (a : Z) :
  0 <= a -> Z.of_nat (length (drop (Z.to_nat a) src)) = Z.max 0 (len src - a).
Proof. intros Ha. rewrite length_drop. unfold len. lia. Qed.

Lemma starts_with_length (needle s : str) :
  starts_with needle s = true -> (length needle <= length s)%nat.
Proof.
  revert s. induction needle as [|a needle IH]; intros [|b s]; simpl;
    try lia; try discriminate.
  intros H. apply andb_true_iff in H. destruct H as [_ H].
  apply IH in H. lia.
Qed.



Lemma indexOf_from_absent (c : ascii) (s : str) :
  c ∉ s -> forall pos, indexOf_from [c] s pos = -1.
Proof.
  induction s as [|a s IH]; intros Hnot pos; simpl; [reflexivity|].
  apply not_elem_of_cons in Hnot. destruct Hnot as [Hne Hnot].
  rewrite bool_decide_eq_false_2 by assumption. simpl. apply IH. assumption.
Qed.



(** ** The closing-bracket locator *)

Section FindClosing.
Variables o c : ascii.
Hypothesis o_neq_c : o <> c.

Local Abbreviation delta := (delta o c).

Lemma countChar_cons (x y : ascii) (seg : str) :
  countChar x (y :: seg) = (if bool_decide (y = x) then 1 else 0) + countChar x seg.
Proof.
  unfold countChar. rewrite filter_cons.
  case_bool_decide; destruct (decide (y = x)); try contradiction; simpl length; lia.
Qed.

Lemma countChar_nil (x : ascii) : countChar x [] = 0.
Proof. reflexivity. Qed.

Lemma delta_cons (y : ascii) (seg : str) :
  delta (y :: seg) =
  (if bool_decide (Some y = Some o) then 1
   else if bool_decide (Some y = Some c) then -1 else 0) + delta seg.
Proof.
  unfold delta. rewrite !countChar_cons.
  repeat case_bool_decide; simplify_eq; try lia.
Qed.

(** The loop stops at the first offset where the counter is zero. *)
Lemma findClosing_loop_Some (rest : str) : forall (pos opened k : Z),
  1 <= opened ->
  findClosing_loop (Some o) (Some c) rest pos opened = Some k ->
  exists n : nat,
    k = pos + Z.of_nat n /\ (n < length rest)%nat /\
    opened + delta (take (S n) rest) = 0 /\
    forall m : nat, (m < n)%nat -> 0 < opened + delta (take (S m) rest).
Proof.
  induction rest as [|y rest IH]; intros pos opened k Hop H; simpl in H.
  - discriminate.
  - pose proof (delta_cons y) as Hd.
    destruct (bool_decide (Some y = Some o)).
    + apply IH in H; [|lia]. destruct H as (n & -> & Hn & Hz & Hpos).
      exists (S n). repeat split.
      * lia.
      * simpl. lia.
      * rewrite firstn_cons, Hd. lia.
      * intros [|m] Hm; rewrite firstn_cons, Hd.
        -- rewrite take_0. unfold delta. rewrite !countChar_nil. lia.
        -- specialize (Hpos m ltac:(lia)). lia.
    + destruct (bool_decide (Some y = Some c)).
      * destruct (opened - 1 <=? 0) eqn:Hle.
        -- apply Z.leb_le in Hle. injection H as <-. exists 0%nat.
           repeat split.
           ++ lia.
           ++ simpl. lia.
           ++ rewrite firstn_cons, Hd, take_0. unfold delta.
              rewrite !countChar_nil. lia.
           ++ intros m Hm. lia.
        -- apply Z.leb_gt in Hle. apply IH in H; [|lia].
           destruct H as (n & -> & Hn & Hz & Hpos).
           exists (S n). repeat split.
           ++ lia.
           ++ simpl. lia.
           ++ rewrite firstn_cons, Hd. lia.
           ++ intros [|m] Hm; rewrite firstn_cons, Hd.
              ** rewrite take_0. unfold delta. rewrite !countChar_nil. lia.
              ** specialize (Hpos m ltac:(lia)). lia.
      * apply IH in H; [|lia]. destruct H as (n & -> & Hn & Hz & Hpos).
        exists (S n). repeat split.
        -- lia.
        -- simpl. lia.
        -- rewrite firstn_cons, Hd. lia.
        -- intros [|m] Hm; rewrite firstn_cons, Hd.
           ++ rewrite take_0. unfold delta. rewrite !countChar_nil. lia.
           ++ specialize (Hpos m ltac:(lia)). lia.
Qed.

(** The loop runs off the text only if the counter stays positive. *)
Lemma findClosing_loop_None (rest : str) : forall (pos opened : Z),
  1 <= opened ->
  findClosing_loop (Some o) (Some c) rest pos opened = None ->
  forall m : nat, (m < length rest)%nat -> 0 < opened + delta (take (S m) rest).
Proof.
  induction rest as [|y rest IH]; intros pos opened Hop H m Hm; simpl in *.
  - lia.
  - pose proof (delta_cons y) as Hd. rewrite Hd.
    assert (Hnil : delta [] = 0) by reflexivity.
    destruct (bool_decide (Some y = Some o)).
    + destruct m as [|m]; [rewrite take_0; lia|].
      apply IH with (m := m) in H; lia.
    + destruct (bool_decide (Some y = Some c)).
      * destruct (opened - 1 <=? 0) eqn:Hle; [discriminate|].
        apply Z.leb_gt in Hle.
        destruct m as [|m]; [rewrite take_0; lia|].
        apply IH with (m := m) in H; lia.
      * destruct m as [|m]; [rewrite take_0; lia|].
        apply IH with (m := m) in H; lia.
Qed.
End FindClosing.

Lemma countChar_app (x : ascii) (s1 s2 : str) :
  countChar x (s1 ++ s2) = countChar x s1 + countChar x s2.
Proof.
  unfold countChar. rewrite filter_app, length_app. lia.
Qed.

Lemma delta_app (o c : ascii) (s1 s2 : str) :
  delta o c (s1 ++ s2) = delta o c s1 + delta o c s2.
Proof. unfold delta. rewrite !countChar_app. lia. Qed.

Lemma nestingAt_take (o c : ascii) (src : str) (offset : Z) (n : nat) :
  nestingAt o c src offset (offset + 1 + Z.of_nat n) =
  1 + (countChar o (take (S n) (drop (Z.to_nat (offset + 1)) src))
       - countChar c (take (S n) (drop (Z.to_nat (offset + 1)) src))).
Proof.
  unfold nestingAt, segment.
  replace (Z.to_nat (offset + 1 + Z.of_nat n + 1 - (offset + 1))) with (S n) by lia.
  lia.
Qed.

(** What [findClosing] answers, in terms of the counter: the first offset
    where it is zero, or the error when it never is. *)
Lemma countNewlines_loop_end (src : str) :
  forall (m : nat) (i line : Z),
    len src <= i -> countNewlines_loop m src i line = line.
Proof.
  induction m as [|m IH]; intros i line Hi; simpl; [reflexivity|].
  rewrite IH by lia. rewrite bool_decide_eq_false_2; [reflexivity|].
  unfold charAt. destruct (i <? 0); [discriminate|].
  rewrite lookup_ge_None_2; [discriminate|]. unfold len in Hi. lia.
Qed.

Lemma countNewlines_loop_count (rest : str) :
  forall (n : nat) (pre : str) (line : Z),
    countNewlines_loop n (pre ++ rest) (len pre) line =
    line + countChar newline (take n rest).
Proof.
  induction rest as [|x rest IH]; intros n pre line.
  - rewrite take_nil, countChar_nil, Z.add_0_r.
    apply countNewlines_loop_end. rewrite app_nil_r. lia.
  - destruct n as [|n]; simpl.
    + rewrite countChar_nil. lia.
    + rewrite (charAt_app pre rest x).
      replace (pre ++ x :: rest) with ((pre ++ [x]) ++ rest)
        by (rewrite <- app_assoc; reflexivity).
      rewrite <- (len_snoc pre x), IH, countChar_cons.
      destruct (decide (x = newline)) as [->|Hx].
      * rewrite !bool_decide_eq_true_2 by reflexivity. lia.
      * rewrite (bool_decide_eq_false_2 (Some x = Some newline)) by congruence.
        rewrite (bool_decide_eq_false_2 (x = newline)) by assumption. lia.
Qed.

(** The loop counts the line feeds before the offset. *)
Lemma countNewlines_count (src : str) (start : Z) :
  countNewlines src start = countChar newline (segment src 0 start).
Proof.
  unfold countNewlines, segment.
  change (countNewlines_loop (Z.to_nat start) src 0 0)
    with (countNewlines_loop (Z.to_nat start) ([] ++ src) (len []) 0).
  rewrite countNewlines_loop_count, Z.sub_0_r, drop_0. lia.
Qed.

Lemma findClosing_first_zero (src brackets : str) (offset : Z) (o c : ascii) :
  brackets !! 0%nat = Some o -> brackets !! 1%nat = Some c -> o <> c ->
  0 <= offset ->
  match findClosing src offset brackets with
  | Ok k =>
      offset < k < len src /\ nestingAt o c src offset k = 0 /\
      forall j, offset < j < k -> 0 < nestingAt o c src offset j
  | Throw e =>
      e = SyntaxError (1 + countNewlines src offset) /\
      forall j, offset < j < len src -> 0 < nestingAt o c src offset j
  end.
Proof.
  intros Ho Hc Hne Hoff. unfold findClosing. rewrite Ho, Hc.
  destruct (offset + 1 <? 0) eqn:Hneg; [apply Z.ltb_lt in Hneg; lia|].
  pose proof (length_drop_Z src (offset + 1) ltac:(lia)) as Hlen.
  destruct (findClosing_loop _ _ _ _ _) as [k|] eqn:Hloop.
  - apply (findClosing_loop_Some o c Hne) in Hloop; [|lia].
    destruct Hloop as (n & -> & Hn & Hz & Hpos). unfold delta in Hz, Hpos.
    split; [lia|]. split.
    + rewrite nestingAt_take. lia.
    + intros j Hj.
      replace j with (offset + 1 + Z.of_nat (Z.to_nat (j - offset - 1))) by lia.
      rewrite nestingAt_take.
      specialize (Hpos (Z.to_nat (j - offset - 1)) ltac:(lia)). lia.
  - split; [reflexivity|]. intros j Hj.
    replace j with (offset + 1 + Z.of_nat (Z.to_nat (j - offset - 1))) by lia.
    rewrite nestingAt_take.
    pose proof (findClosing_loop_None o c Hne _ (offset + 1) 1 ltac:(lia) Hloop
                  (Z.to_nat (j - offset - 1)) ltac:(lia)) as Hpos.
    unfold delta in Hpos. lia.
Qed.

(** C6. For every text, every offset of an opening bracket and every
    bracket pair (two different characters), [findClosing] returns [k]
    exactly when [k] is the first offset after the opening one at which
    the nesting counter (1 at the start, plus one on the pair's open
    character, minus one on its close character) is 0; and it throws
    exactly when the counter is still positive at every offset up to the
    end of the text, with the 1-based line of the opening offset: one
    plus the number of line feeds before it. *)
Theorem findClosing_counter (src brackets : str) (offset : Z) (o c : ascii) :
  brackets !! 0%nat = Some o -> brackets !! 1%nat = Some c -> o <> c ->
  0 <= offset ->
  (forall k, findClosing src offset brackets = Ok k <->
     offset < k < len src /\ nestingAt o c src offset k = 0 /\
     forall j, offset < j < k -> 0 < nestingAt o c src offset j) /\
  (forall e, findClosing src offset brackets = Throw e <->
     e = SyntaxError (1 + countChar newline (segment src 0 offset)) /\
     forall j, offset < j < len src -> 0 < nestingAt o c src offset j).
Proof.
  intros Ho Hc Hne Hoff.
  pose proof (findClosing_first_zero src brackets offset o c Ho Hc Hne Hoff) as H.
  rewrite <- (countNewlines_count src offset).
  destruct (findClosing src offset brackets) as [k'|e'].
  - destruct H as (Hk & Hz & Hpos). split.
    + intros k. split.
      * intros [= <-]. auto.
      * intros (Hk2 & Hz2 & Hpos2). f_equal.
        destruct (Z.lt_trichotomy k k') as [Hlt|[Heq|Hgt]]; [|exact (eq_sym Heq)|].
        -- specialize (Hpos k ltac:(lia)). lia.
        -- specialize (Hpos2 k' ltac:(lia)). lia.
    + intros e. split; [discriminate|].
      intros (_ & Hall). specialize (Hall k' ltac:(lia)). lia.
  - destruct H as (-> & Hall). split.
    + intros k. split; [discriminate|].
      intros (Hk & Hz & _). specialize (Hall k ltac:(lia)). lia.
    + intros e. split.
      * intros [= <-]. auto.
      * intros (-> & _). reflexivity.
Qed.

(** A text of three lines with the bracket on the third: the partner of
    the bracket at offset 5 is at offset 11, and the same text cut before
    the partner throws with line 3, two line feeds standing before
    offset 5. *)
Lemma findClosing_counter_witness :
  let src := lit "a" ++ [newline] ++ lit "b" ++ [newline] ++ lit "f(a(b)c" in
  ((forall k, findClosing src 5 ROUND_BRACKETS = Ok k <->
      5 < k < len src /\ nestingAt "(" ")" src 5 k = 0 /\
      forall j, 5 < j < k -> 0 < nestingAt "(" ")" src 5 j) /\
   (forall e, findClosing src 5 ROUND_BRACKETS = Throw e <->
      e = SyntaxError (1 + countChar newline (segment src 0 5)) /\
      forall j, 5 < j < len src -> 0 < nestingAt "(" ")" src 5 j)) /\
  findClosing src 5 ROUND_BRACKETS = Throw (SyntaxError 3) /\
  findClosing (src ++ lit ")") 5 ROUND_BRACKETS = Ok 11.
Proof.
  intros src. split.
  - apply (findClosing_counter src ROUND_BRACKETS 5 "(" ")");
      [reflexivity | reflexivity | discriminate | lia].
  - split; vm_compute; reflexivity.
Defined.

Lemma findClosing_loop_range (b0 b1 : option ascii) (rest : str) :
  forall pos opened k,
    findClosing_loop b0 b1 rest pos opened = Some k ->
    pos <= k < pos + Z.of_nat (length rest).
Proof.
  induction rest as [|y rest IH]; intros pos opened k H; simpl in H.
  - discriminate.
  - simpl length.
    repeat match type of H with
           | (if ?b then _ else _) = _ => destruct b
           end;
      try (apply IH in H; lia).
    injection H as <-. lia.
Qed.

(** [findClosing] answers an offset of the text after the opening one. *)
Lemma findClosing_range (src brackets : str) (offset k : Z) :
  findClosing src offset brackets = Ok k ->
  offset < k < len src /\ 0 <= k.
Proof.
  unfold findClosing. destruct (offset + 1 <? 0) eqn:Hneg; [discriminate|].
  apply Z.ltb_ge in Hneg.
  destruct (findClosing_loop _ _ _ _ _) as [k'|] eqn:Hloop; [|discriminate].
  intros [= <-]. apply findClosing_loop_range in Hloop.
  rewrite length_drop in Hloop. unfold len. lia.
Qed.

Lemma findClosing_loop_at (b0 b1 : option ascii) (rest : str) :
  forall pos opened k,
    findClosing_loop b0 b1 rest pos opened = Some k ->
    exists char, rest !! Z.to_nat (k - pos) = Some char /\ Some char = b1.
Proof.
  induction rest as [|y rest IH]; intros pos opened k H; simpl in H.
  - discriminate.
  - assert (Hrec : forall opened',
        findClosing_loop b0 b1 rest (pos + 1) opened' = Some k ->
        exists char, (y :: rest) !! Z.to_nat (k - pos) = Some char /\ Some char = b1).
    { intros opened' Hl. pose proof (findClosing_loop_range _ _ _ _ _ _ Hl) as Hr.
      apply IH in Hl. destruct Hl as (char & Hl & Hb). exists char. split; [|exact Hb].
      replace (Z.to_nat (k - pos)) with (S (Z.to_nat (k - (pos + 1)))) by lia.
      exact Hl. }
    destruct (bool_decide (Some y = b0)); [eauto|].
    destruct (bool_decide (Some y = b1)) eqn:Hy; [|eauto].
    destruct (opened - 1 <=? 0); [|eauto].
    injection H as <-. exists y. rewrite Z.sub_diag. simpl.
    apply bool_decide_eq_true_1 in Hy. auto.
Qed.

(** The offset [findClosing] answers holds the closing character. *)
Lemma findClosing_at (src brackets : str) (offset k : Z) :
  findClosing src offset brackets = Ok k ->
  exists char, charAt src k = Some char /\ brackets !! 1%nat = Some char.
Proof.
  intros H. pose proof (findClosing_range _ _ _ _ H) as Hr. revert H.
  unfold findClosing. destruct (offset + 1 <? 0) eqn:Hneg; [discriminate|].
  apply Z.ltb_ge in Hneg.
  destruct (findClosing_loop _ _ _ _ _) as [k'|] eqn:Hloop; [|discriminate].
  intros [= <-]. apply findClosing_loop_at in Hloop.
  destruct Hloop as (char & Hl & Hb). exists char. split; [|auto].
  rewrite lookup_drop in Hl. unfold charAt.
  destruct (k' <? 0) eqn:Hk; [apply Z.ltb_lt in Hk; lia|].
  rewrite <- Hl. f_equal. lia.
Qed.

Lemma findClosing_loop_no_close (b0 : option ascii) (c : ascii) (rest : str) :
  forall pos opened,
    c ∉ rest -> findClosing_loop b0 (Some c) rest pos opened = None.
Proof.
  induction rest as [|y rest IH]; intros pos opened Hnot; simpl; [reflexivity|].
  apply not_elem_of_cons in Hnot. destruct Hnot as [Hne Hnot].
  destruct (bool_decide (Some y = b0)); [apply IH; assumption|].
  rewrite bool_decide_eq_false_2 by congruence. apply IH. assumption.
Qed.

(** The partner of a parenthesis that opens a balanced stretch is the
    parenthesis after the stretch. *)
Lemma findClosing_balanced (pre inner post : str) :
  balanced "(" ")" inner ->
  findClosing (pre ++ "("%char :: inner ++ ")"%char :: post) (len pre)
    ROUND_BRACKETS = Ok (len pre + 1 + len inner).
Proof.
  intros [Hzero Hpos].
  set (src := pre ++ "("%char :: inner ++ ")"%char :: post).
  assert (Hdrop : drop (Z.to_nat (len pre + 1)) src = inner ++ ")"%char :: post).
  { unfold src.
    replace (pre ++ "("%char :: inner ++ ")"%char :: post)
      with ((pre ++ ["("%char]) ++ inner ++ ")"%char :: post)
      by (rewrite <- app_assoc; reflexivity).
    replace (Z.to_nat (len pre + 1)) with (length (pre ++ ["("%char]))
      by (rewrite length_app; unfold len; simpl; lia).
    apply drop_app_length. }
  assert (Hlen : len src = len pre + 1 + len inner + 1 + len post).
  { unfold src, len. repeat (rewrite length_app; simpl length). lia. }
  assert (Hnest : forall j, len pre < j ->
            nestingAt "(" ")" src (len pre) j =
            1 + delta "(" ")" (take (Z.to_nat (j - len pre)) (inner ++ ")"%char :: post))).
  { intros j Hj. unfold nestingAt, segment, delta. rewrite Hdrop.
    replace (Z.to_nat (j + 1 - (len pre + 1))) with (Z.to_nat (j - len pre)) by lia.
    lia. }
  assert (Hzero' : nestingAt "(" ")" src (len pre) (len pre + 1 + len inner) = 0).
  { rewrite Hnest by (unfold len; lia).
    replace (Z.to_nat (len pre + 1 + len inner - len pre)) with (S (length inner))
      by (unfold len; lia).
    replace (inner ++ ")"%char :: post) with ((inner ++ [")"%char]) ++ post)
      by (rewrite <- app_assoc; reflexivity).
    replace (S (length inner)) with (length (inner ++ [")"%char]))
      by (rewrite length_app; simpl; lia).
    rewrite take_app_length, delta_app, Hzero. reflexivity. }
  assert (Hpos' : forall j, len pre < j < len pre + 1 + len inner ->
                            0 < nestingAt "(" ")" src (len pre) j).
  { intros j Hj. rewrite Hnest by lia.
    rewrite take_app_le by (unfold len in *; lia).
    specialize (Hpos (Z.to_nat (j - len pre))). lia. }
  pose proof (findClosing_first_zero src ROUND_BRACKETS (len pre) "(" ")"
                eq_refl eq_refl ltac:(discriminate) ltac:(unfold len; lia)) as H.
  destruct (findClosing src (len pre) ROUND_BRACKETS) as [k|e].
  - destruct H as (Hk & Hz & Hbefore). f_equal.
    destruct (Z.lt_trichotomy k (len pre + 1 + len inner)) as [Hlt|[Heq|Hgt]];
      [|exact Heq|].
    + specialize (Hpos' k ltac:(lia)). lia.
    + specialize (Hbefore (len pre + 1 + len inner) ltac:(unfold len in *; lia)). lia.
  - destruct H as (_ & Hall).
    specialize (Hall (len pre + 1 + len inner) ltac:(unfold len in *; lia)). lia.
Qed.

(** A quote character is to the loop a character like any other. *)
Lemma findClosing_loop_skips (b0 b1 : option ascii) (q : ascii) (rest : str)
    (pos opened : Z) :
  Some q <> b0 -> Some q <> b1 ->
  findClosing_loop b0 b1 (q :: rest) pos opened =
  findClosing_loop b0 b1 rest (pos + 1) opened.
Proof.
  intros H0 H1. simpl.
  rewrite !bool_decide_eq_false_2 by assumption. reflexivity.
Qed.

(** C10. [findClosing] tracks no quotes.  On [{ x = "}" }], from offset 0
    with the pair of braces, it returns 7, the offset of the brace inside
    the string literal (between the quotes at 6 and 8), while the
    string-aware scanner [goTo] finds the closing brace outside the
    string, the partner in the text, at 10.  In general the loop reads a
    quote character as it reads any character that is not of the pair:
    it moves on with the counter unchanged, whatever follows. *)
Theorem findClosing_no_quote_tracking :
  (findClosing quotedClose 0 OBJECT_BRACKETS = Ok 7 /\
   charAt quotedClose 6 = Some dquote /\
   charAt quotedClose 7 = Some "}"%char /\
   charAt quotedClose 8 = Some dquote /\
   goTo quotedClose (TermString (lit "}")) 1 = Ok 10) /\
  (forall (b0 b1 : option ascii) (q : ascii) (rest : str) (pos opened : Z),
     isQuote q = true -> Some q <> b0 -> Some q <> b1 ->
     findClosing_loop b0 b1 (q :: rest) pos opened =
     findClosing_loop b0 b1 rest (pos + 1) opened).
Proof.
  split.
  - repeat split; vm_compute; reflexivity.
  - intros b0 b1 q rest pos opened _. apply findClosing_loop_skips.
Qed.

Lemma findClosing_no_quote_tracking_witness :
  findClosing_loop (Some "{"%char) (Some "}"%char) (dquote :: lit "}") 6 1 =
  findClosing_loop (Some "{"%char) (Some "}"%char) (lit "}") (6 + 1) 1.
Proof.
  apply (proj2 findClosing_no_quote_tracking);
    [reflexivity | discriminate | discriminate].
Defined.

(** ** The scanner *)

(** [goTo] answers [-1] or an offset of the text at or after the start. *)
Lemma goTo_loop_range (fuel : nat) (src : str) (term : Term) :
  forall offset prevChar stringOpen k,
    goTo_loop fuel src term offset prevChar stringOpen = Ok k ->
    k = -1 \/ (offset <= k < len src /\ 0 <= k).
Proof.
  induction fuel as [|fuel IH]; intros offset prevChar stringOpen k H; simpl in H.
  - injection H as <-. auto.
  - destruct (charAt src offset) as [char|] eqn:Hchar.
    2:{ injection H as <-. auto. }
    apply charAt_Some in Hchar.
    destruct (bool_decide (stringOpen = None) && termMatches term char).
    { injection H as <-. right. lia. }
    destruct (bracketsOf char) as [brackets|].
    + destruct (findClosing src offset brackets) as [k'|e] eqn:Hfc;
        simpl in H; [|discriminate].
      apply findClosing_range in Hfc. apply IH in H. lia.
    + apply IH in H. lia.
Qed.

Lemma goTo_range (src : str) (term : Term) (offset k : Z) :
  goTo src term offset = Ok k ->
  k = -1 \/ (offset <= k < len src /\ 0 <= k).
Proof. apply goTo_loop_range. Qed.

(** The fuel of [goTo_loop] never runs out: any two amounts above the
    distance to the end of the text give the same answer. *)
Lemma goTo_loop_fuel (src : str) (term : Term) (fuel1 : nat) :
  forall (fuel2 : nat) offset prevChar stringOpen,
    len src - offset < Z.of_nat fuel1 -> len src - offset < Z.of_nat fuel2 ->
    (1 <= fuel1)%nat -> (1 <= fuel2)%nat ->
    goTo_loop fuel1 src term offset prevChar stringOpen =
    goTo_loop fuel2 src term offset prevChar stringOpen.
Proof.
  induction fuel1 as [|fuel1 IH]; intros fuel2 offset prevChar stringOpen H1 H2 P1 P2.
  - lia.
  - destruct fuel2 as [|fuel2]; [lia|]. simpl.
    destruct (charAt src offset) as [char|] eqn:Hchar; [|reflexivity].
    apply charAt_Some in Hchar.
    destruct (bool_decide (stringOpen = None) && termMatches term char);
      [reflexivity|].
    destruct (bracketsOf char) as [brackets|].
    + destruct (findClosing src offset brackets) as [k'|e] eqn:Hfc;
        simpl; [|reflexivity].
      apply findClosing_range in Hfc. apply IH; lia.
    + apply IH; lia.
Qed.

(** Inside an open string an opening bracket still calls [findClosing]:
    the [switch] of [goTo] does not look at [stringOpen]. *)
Lemma goTo_loop_bracket_in_string (fuel : nat) (src : str) (term : Term)
    (offset : Z) (prevChar : option ascii) (q char : ascii) (brackets : str) :
  charAt src offset = Some char -> bracketsOf char = Some brackets ->
  goTo_loop (S fuel) src term offset prevChar (Some q) =
  (offset' <- findClosing src offset brackets ;;
   goTo_loop fuel src term (offset' + 1) (Some char) (Some q)).
Proof. intros Hc Hb. simpl. rewrite Hc, Hb. reflexivity. Qed.

(** Inside an open string a character that is no bracket is passed
    over without the test for the target. *)
Lemma goTo_loop_inside_string (fuel : nat) (src : str) (term : Term)
    (offset : Z) (prevChar : option ascii) (q char : ascii) :
  charAt src offset = Some char -> bracketsOf char = None ->
  goTo_loop (S fuel) src term offset prevChar (Some q) =
  goTo_loop fuel src term (offset + 1) (Some char)
    (if isQuote char then openString char prevChar (Some q) else Some q).
Proof. intros Hc Hb. simpl. rewrite Hc, Hb. reflexivity. Qed.

(** C1. The target is only tested outside a quoted region, but a bracket
    inside a string literal does open a bracket region.  On ["{" ;] the
    search for the semicolon throws, because the brace inside the string
    is handed to [findClosing] and has no partner; on ["{";}] the region
    opened inside the string swallows the semicolon, which is not found;
    with a letter in place of the brace the semicolon is found at 4.  In
    general, inside an open string, a character that is no bracket is
    passed over whether it is the target or not, and an opening bracket
    is handed to [findClosing] as it is outside of strings. *)
Theorem goTo_bracket_inside_string :
  (goTo quotedOpen semicolon 0 = Throw (SyntaxError 1) /\
   goTo quotedOpenThenClose semicolon 0 = Ok (-1) /\
   charAt quotedOpenThenClose 3 = Some ";"%char /\
   goTo quotedLetter semicolon 0 = Ok 4) /\
  (forall (fuel : nat) (src : str) (term : Term) (offset : Z)
          (prevChar : option ascii) (q char : ascii),
     charAt src offset = Some char -> bracketsOf char = None ->
     goTo_loop (S fuel) src term offset prevChar (Some q) =
     goTo_loop fuel src term (offset + 1) (Some char)
       (if isQuote char then openString char prevChar (Some q) else Some q)) /\
  (forall (fuel : nat) (src : str) (term : Term) (offset : Z)
          (prevChar : option ascii) (q char : ascii) (brackets : str),
     charAt src offset = Some char -> bracketsOf char = Some brackets ->
     goTo_loop (S fuel) src term offset prevChar (Some q) =
     (offset' <- findClosing src offset brackets ;;
      goTo_loop fuel src term (offset' + 1) (Some char) (Some q))).
Proof.
  split; [repeat split; vm_compute; reflexivity|]. split.
  - apply goTo_loop_inside_string.
  - apply goTo_loop_bracket_in_string.
Qed.

(** At the brace of ["{" ;], with the string open. *)
Lemma goTo_bracket_inside_string_witness :
  goTo_loop 5 quotedOpen semicolon 1 (Some dquote) (Some dquote) =
  (offset' <- findClosing quotedOpen 1 OBJECT_BRACKETS ;;
   goTo_loop 4 quotedOpen semicolon (offset' + 1) (Some "{"%char) (Some dquote)).
Proof.
  apply (proj2 (proj2 goTo_bracket_inside_string)); reflexivity.
Defined.

Lemma space_not_special (c : ascii) :
  is_space c = true -> bracketsOf c = None /\ isQuote c = false.
Proof.
  destruct c as [[] [] [] [] [] [] [] []]; try discriminate; split; reflexivity.
Qed.

(** [goTo] with [/\S/] walks over white space and stops at the first
    other character. *)
Lemma goTo_loop_nonSpace (spaces : str) :
  forall (pre tail : str) (c : ascii) (fuel : nat) (prevChar : option ascii),
    Forall (fun x => is_space x = true) spaces -> is_space c = false ->
    (length spaces < fuel)%nat ->
    goTo_loop fuel (pre ++ spaces ++ c :: tail) nonSpace (len pre) prevChar None =
    Ok (len pre + len spaces).
Proof.
  induction spaces as [|x spaces IH]; intros pre tail c fuel prevChar Hsp Hc Hf.
  - destruct fuel as [|fuel]; [simpl in Hf; lia|].
    cbn [goTo_loop]. simpl app. rewrite charAt_app.
    cbn [nonSpace termMatches]. rewrite Hc. simpl "&&". cbv iota.
    unfold len. simpl length. f_equal. lia.
  - destruct fuel as [|fuel]; [simpl in Hf; lia|].
    inversion Hsp as [|? ? Hx Hrest]; subst.
    cbn [goTo_loop]. simpl app. rewrite charAt_app.
    cbn [nonSpace termMatches]. rewrite Hx. simpl "&&".
    destruct (space_not_special _ Hx) as [-> ->].
    replace (pre ++ x :: spaces ++ c :: tail)
      with ((pre ++ [x]) ++ spaces ++ c :: tail)
      by (rewrite <- app_assoc; reflexivity).
    rewrite <- (len_snoc pre x), IH; [|assumption|assumption|simpl in Hf; lia].
    f_equal. rewrite len_snoc. unfold len. simpl length. lia.
Qed.

(** [goTo] walks over plain characters. *)
Lemma goTo_loop_plain (term : Term) (plain : str) :
  forall (pre tail : str) (fuel : nat) (prevChar : option ascii),
    Forall (fun x => plainScanChar term x = true) plain ->
    exists prevChar',
      goTo_loop (length plain + fuel) (pre ++ plain ++ tail) term (len pre)
        prevChar None =
      goTo_loop fuel (pre ++ plain ++ tail) term (len pre + len plain)
        prevChar' None.
Proof.
  induction plain as [|x plain IH]; intros pre tail fuel prevChar Hplain.
  - exists prevChar. simpl. unfold len at 3. simpl. rewrite Z.add_0_r. reflexivity.
  - inversion Hplain as [|? ? Hx Hrest]; subst.
    unfold plainScanChar in Hx. apply andb_true_iff in Hx. destruct Hx as [Hx Hq].
    apply andb_true_iff in Hx. destruct Hx as [Ht Hb].
    apply negb_true_iff in Ht, Hq. apply bool_decide_eq_true_1 in Hb.
    cbn [length Nat.add goTo_loop]. simpl app. rewrite charAt_app, Ht, Hb, Hq.
    rewrite andb_false_r.
    replace (pre ++ x :: plain ++ tail) with ((pre ++ [x]) ++ plain ++ tail)
      by (rewrite <- app_assoc; reflexivity).
    destruct (IH (pre ++ [x]) tail fuel (Some x) Hrest) as (prevChar' & IH').
    exists prevChar'. rewrite <- (len_snoc pre x), IH'.
    f_equal. rewrite len_snoc. unfold len. simpl length. lia.
Qed.

(** When everything outside one pair of parentheses is plain and the
    inside is balanced, the scanner finds no target: whatever stands
    between the parentheses, separators included, is skipped. *)
Lemma goTo_parenthesised (term : Term) (pre inner post : str) :
  Forall (fun x => plainScanChar term x = true) pre ->
  Forall (fun x => plainScanChar term x = true) post ->
  termMatches term "(" = false ->
  balanced "(" ")" inner ->
  goTo (pre ++ "("%char :: inner ++ ")"%char :: post) term 0 = Ok (-1).
Proof.
  intros Hpre Hpost Hterm Hbal. unfold goTo.
  set (src := pre ++ "("%char :: inner ++ ")"%char :: post).
  assert (Hlen : length src = (length pre + (length post + S (S (length inner))))%nat).
  { unfold src. repeat (rewrite length_app; simpl length). lia. }
  replace (S (length src))
    with (length pre + S (length post + S (S (length inner))))%nat by lia.
  destruct (goTo_loop_plain term pre [] ("("%char :: inner ++ ")"%char :: post)
              (S (length post + S (S (length inner)))) None Hpre) as (p1 & H1).
  simpl app in H1. change (len []) with 0 in H1. rewrite Z.add_0_l in H1.
  fold src in H1. rewrite H1. clear H1.
  cbn [goTo_loop]. unfold src at 1. rewrite charAt_app, Hterm, andb_false_r.
  cbn [bracketsOf]. fold src. unfold src at 1.
  rewrite (findClosing_balanced pre inner post Hbal). cbn [bindR].
  assert (Hsrc : src = (pre ++ "("%char :: inner ++ [")"%char]) ++ post ++ []).
  { unfold src. rewrite app_nil_r, <- !app_assoc. simpl.
    rewrite <- app_assoc. reflexivity. }
  assert (Hk : len pre + 1 + len inner + 1 = len (pre ++ "("%char :: inner ++ [")"%char])).
  { unfold len. repeat (rewrite length_app; simpl length). lia. }
  rewrite Hk.
  destruct (goTo_loop_plain term post (pre ++ "("%char :: inner ++ [")"%char]) []
              (S (S (length inner))) (Some "("%char) Hpost) as (p2 & H2).
  rewrite <- Hsrc in H2. rewrite H2. cbn [goTo_loop].
  assert (Hend : charAt src (len (pre ++ "("%char :: inner ++ [")"%char]) + len post) = None).
  { unfold charAt. rewrite <- Hk.
    destruct (_ <? 0); [reflexivity|]. apply lookup_ge_None.
    unfold len. lia. }
  rewrite Hend. reflexivity.
Qed.

(** ** The splitter *)


(** When the scanner finds no separator from the start, the whole text
    is the one chunk. *)
Lemma split_single (src : str) (term : Term) (trimmed : bool) :
  goTo src term 0 = Ok (-1) -> split src term trimmed = Ok [pushed trimmed src].
Proof.
  intros H. unfold split. cbn [split_loop]. rewrite H. cbn [bindR].
  simpl. rewrite substr_0. reflexivity.
Qed.

(** ** The matcher

    The continuation of the matcher is only ever called on what is left
    of the text, so a match never reaches back; this is why the fuel of
    [replaceAll] is enough. *)

Lemma matchStar_suffix {A : Type} (greedy : bool) (p : ascii -> bool)
    (rest : str) (k : str -> option A) (x : A) :
  matchStar greedy p rest k = Some x ->
  exists rest', rest' `suffix_of` rest /\ k rest' = Some x.
Proof.
  induction rest as [|c rest IH]; simpl; intros H.
  - exists []. split; [reflexivity|assumption].
  - assert (Hrec : matchStar greedy p rest k = Some x ->
                   exists rest', rest' `suffix_of` c :: rest /\ k rest' = Some x).
    { intros Hm. destruct (IH Hm) as (rest' & Hs & Hk). exists rest'.
      split; [apply suffix_cons_r; assumption|assumption]. }
    assert (Hhere : k (c :: rest) = Some x ->
                    exists rest', rest' `suffix_of` c :: rest /\ k rest' = Some x).
    { intros Hk. exists (c :: rest). split; [reflexivity|assumption]. }
    destruct (p c); [|auto].
    destruct greedy; unfold orElse in H.
    + destruct (matchStar true p rest k) eqn:Hm; [injection H as ->; auto|auto].
    + destruct (k (c :: rest)) eqn:Hk; [injection H as ->; auto|auto].
Qed.

Lemma matchRe_suffix {A : Type} (r : RegExp) :
  forall (rest : str) (caps : gmap nat str)
         (k : str -> gmap nat str -> option A) (x : A),
    matchRe r rest caps k = Some x ->
    exists rest' caps', rest' `suffix_of` rest /\ k rest' caps' = Some x.
Proof.
  induction r as [s|p|r1 IH1 r2 IH2|r1 IH1 r2 IH2|r1 IH1|greedy p|greedy p|n r1 IH1|];
    intros rest caps k x H; simpl in H.
  - destruct (starts_with s rest); [|discriminate].
    exists (drop (length s) rest), caps. split; [apply suffix_drop|assumption].
  - destruct rest as [|c rest]; [discriminate|].
    destruct (p c); [|discriminate].
    exists rest, caps. split; [apply suffix_cons_r; reflexivity|assumption].
  - apply IH1 in H. destruct H as (rest1 & caps1 & Hs1 & H).
    apply IH2 in H. destruct H as (rest2 & caps2 & Hs2 & H).
    exists rest2, caps2. split; [etransitivity; eassumption|assumption].
  - unfold orElse in H. destruct (matchRe r1 rest caps k) eqn:H1.
    + injection H as ->. eapply IH1; eassumption.
    + eapply IH2; eassumption.
  - unfold orElse in H. destruct (matchRe r1 rest caps k) eqn:H1.
    + injection H as ->. eapply IH1; eassumption.
    + exists rest, caps. split; [reflexivity|assumption].
  - apply matchStar_suffix in H. destruct H as (rest' & Hs & H).
    exists rest', caps. split; assumption.
  - destruct rest as [|c rest]; [discriminate|].
    destruct (p c); [|discriminate].
    apply matchStar_suffix in H. destruct H as (rest' & Hs & H).
    exists rest', caps. split; [apply suffix_cons_r; assumption|assumption].
  - apply IH1 in H. destruct H as (rest' & caps' & Hs & H).
    eexists _, _. split; [exact Hs|exact H].
  - destruct rest as [|c rest]; [|discriminate].
    exists [], caps. split; [reflexivity|assumption].
Qed.

Lemma matchAt_bounds (r : RegExp) (rest : str) (pos : Z) (m : Match) :
  matchAt r rest pos = Some m ->
  m_index m = pos /\ (length (m_text m) <= length rest)%nat.
Proof.
  unfold matchAt. intros H. apply matchRe_suffix in H.
  destruct H as (rest' & caps' & Hs & [= <-]). simpl.
  split; [reflexivity|]. rewrite length_take. lia.
Qed.

Lemma searchFrom_bounds (r : RegExp) (rest : str) :
  forall (pos : Z) (m : Match),
    searchFrom r rest pos = Some m ->
    pos <= m_index m /\
    m_index m - pos + Z.of_nat (length (m_text m)) <= Z.of_nat (length rest).
Proof.
  induction rest as [|c rest IH]; intros pos m H; simpl in H.
  - destruct (matchAt r [] pos) eqn:Hm; [|discriminate].
    injection H as ->. apply matchAt_bounds in Hm. simpl in Hm. lia.
  - destruct (matchAt r (c :: rest) pos) eqn:Hm.
    + injection H as ->. apply matchAt_bounds in Hm. lia.
    + apply IH in H. simpl length. lia.
Qed.

(** The fuel of [replaceAll_loop] never runs out: any two amounts above
    the length of the text left give the same answer. *)
Lemma replaceAll_loop_fuel {St : Type} (r : RegExp)
    (callback : St -> Match -> Result (St * str)) (fuel1 : nat) :
  forall (fuel2 : nat) (rest : str) (pos : Z) (st : St) (out : str),
    (length rest < fuel1)%nat -> (length rest < fuel2)%nat ->
    replaceAll_loop fuel1 r callback rest pos st out =
    replaceAll_loop fuel2 r callback rest pos st out.
Proof.
  induction fuel1 as [|fuel1 IH]; intros fuel2 rest pos st out H1 H2; [lia|].
  destruct fuel2 as [|fuel2]; [lia|]. simpl.
  destruct (searchFrom r rest pos) as [m|] eqn:Hs; [|reflexivity].
  apply searchFrom_bounds in Hs.
  destruct (callback st m) as [[st' replacement]|e]; simpl; [|reflexivity].
  destruct (m_text m) as [|t text] eqn:Ht.
  - destruct (drop (Z.to_nat (m_index m - pos)) rest) as [|c after'] eqn:Hd;
      [reflexivity|].
    assert (length (c :: after') <= length rest)%nat
      by (rewrite <- Hd, length_drop; lia).
    simpl in *. apply IH; lia.
  - simpl length in *. apply IH; rewrite length_drop; lia.
Qed.

(** ** Fuel

    More fuel never changes an answer that was reached. *)

Ltac fuel_cases IH :=
  repeat match goal with
    | H : match ?r with Ok _ => _ | Throw _ => _ end = Some _ |- _ =>
        destruct r
    | H : (if ?b then _ else _) = Some _ |- _ => destruct b
    end;
  try assumption; try (apply IH; [assumption | lia]).

Lemma getType_loop_mono (src : str) (fuel : nat) :
  forall (fuel' : nat) start index types r,
    getType_loop fuel src start index types = Some r -> (fuel <= fuel')%nat ->
    getType_loop fuel' src start index types = Some r.
Proof.
  induction fuel as [|fuel IH]; intros fuel' start index types r H Hle;
    [discriminate|].
  destruct fuel' as [|fuel']; [lia|]. simpl in *.
  destruct (charAt src index) as [char|]; [|assumption].
  destruct char as [[] [] [] [] [] [] [] []]; fuel_cases IH.
Qed.

Lemma getType_mono (src : str) (fuel fuel' : nat) (offset : Z) r :
  getType fuel src offset = Some r -> (fuel <= fuel')%nat ->
  getType fuel' src offset = Some r.
Proof.
  unfold getType. intros H Hle.
  destruct (goTo src nonSpace offset) as [start|e]; simpl in *; [|assumption].
  destruct (getType_loop fuel src start start []) as [scan|] eqn:Hloop;
    [|discriminate].
  rewrite (getType_loop_mono _ _ _ _ _ _ _ Hloop Hle). assumption.
Qed.

Lemma parseParams_loop_mono (src : str) (fuel : nat) :
  forall (fuel' : nat) from to params r,
    parseParams_loop fuel src from to params = Some r -> (fuel <= fuel')%nat ->
    parseParams_loop fuel' src from to params = Some r.
Proof.
  induction fuel as [|fuel IH]; intros fuel' from to params r H Hle;
    [discriminate|].
  destruct fuel' as [|fuel']; [lia|]. simpl in *.
  destruct (negb (from <? to)); [assumption|].
  destruct (fm_index _ =? -1); [assumption|].
  destruct (bool_decide _); [|apply IH; [assumption|lia]].
  destruct (getType fuel src _) as [found|] eqn:Hty; [|discriminate].
  rewrite (getType_mono _ _ fuel' _ _ Hty) by lia.
  destruct found as [found|e]; simpl in *; [|assumption].
  apply IH; [assumption|lia].
Qed.

Lemma parseDTS_round_mono (src : str) (fuel fuel' : nat) (ptr : Z) r :
  parseDTS_round fuel src ptr = Some r -> (fuel <= fuel')%nat ->
  parseDTS_round fuel' src ptr = Some r.
Proof.
  unfold parseDTS_round. intros H Hle.
  destruct (goTo src nonSpace ptr) as [from|e]; simpl in *; [|assumption].
  destruct (bool_decide (charAt src from = Some "}"%char)); [assumption|].
  destruct (bool_decide (fm_found _ = Some "("%char)).
  - destruct (findClosing src _ ROUND_BRACKETS) as [end_|e]; simpl in *;
      [|assumption].
    unfold parseParams in *.
    destruct (parseParams_loop fuel src _ end_ []) as [params|] eqn:Hpp;
      [|discriminate].
    rewrite (parseParams_loop_mono _ _ fuel' _ _ _ _ Hpp) by lia.
    destruct params as [params|e]; simpl in *; [|assumption].
    destruct (bool_decide (fm_found _ = Some ";"%char)); [assumption|].
    destruct (getType fuel src _) as [found|] eqn:Hty; [|discriminate].
    rewrite (getType_mono _ _ fuel' _ _ Hty) by lia. assumption.
  - destruct (bool_decide (fm_found _ = Some ";"%char)); [assumption|].
    destruct (getType fuel src _) as [found|] eqn:Hty; [|discriminate].
    rewrite (getType_mono _ _ fuel' _ _ Hty) by lia. assumption.
Qed.

Lemma parseDTS_loop_mono (src : str) (fuel : nat) :
  forall (fuel' : nat) ptr properties methods r,
    parseDTS_loop fuel src ptr properties methods = Some r ->
    (fuel <= fuel')%nat ->
    parseDTS_loop fuel' src ptr properties methods = Some r.
Proof.
  induction fuel as [|fuel IH]; intros fuel' ptr properties methods r H Hle;
    [discriminate|].
  destruct fuel' as [|fuel']; [lia|]. simpl in *.
  destruct (negb (ptr <? len src)); [assumption|].
  destruct (parseDTS_round fuel src ptr) as [round|] eqn:Hround; [|discriminate].
  rewrite (parseDTS_round_mono _ _ fuel' _ _ Hround) by lia.
  destruct round as [[[[p [|]] field]|]|e]; simpl in *; try assumption;
    (apply IH; [assumption|lia]).
Qed.

Lemma parseDTS_mono (src : str) (fuel fuel' : nat) r :
  parseDTS fuel src = Some r -> (fuel <= fuel')%nat ->
  parseDTS fuel' src = Some r.
Proof.
  unfold parseDTS. intros H Hle.
  destruct (strMatch src classHeader) as [m|]; [|assumption].
  destruct (parseDTS_loop fuel src _ [] []) as [members|] eqn:Hloop;
    [|discriminate].
  rewrite (parseDTS_loop_mono _ _ _ _ _ _ _ Hloop Hle). assumption.
Qed.

Lemma getType_enough (n : nat) (src : str) (offset : Z) r :
  getType n src offset = Some r ->
  forall fuel : nat, getType (n + fuel) src offset = Some r.
Proof. intros H fuel. apply (getType_mono _ n); [assumption|lia]. Qed.

Lemma parseDTS_enough (n : nat) (src : str) r :
  parseDTS n src = Some r ->
  forall fuel : nat, parseDTS (n + fuel) src = Some r.
Proof. intros H fuel. apply (parseDTS_mono _ n); [assumption|lia]. Qed.

(** An answer of [getType] does not depend on the fuel that reached it. *)
Lemma getType_deterministic (src : str) (offset : Z) (fuel1 fuel2 : nat) r1 r2 :
  getType fuel1 src offset = Some r1 -> getType fuel2 src offset = Some r2 ->
  r1 = r2.
Proof.
  intros H1 H2.
  apply (getType_mono _ _ (fuel1 + fuel2)) in H1; [|lia].
  apply (getType_mono _ _ (fuel1 + fuel2)) in H2; [|lia].
  congruence.
Qed.

(** ** The type resolver *)

(** Without a terminator the last member is never recorded: [string]
    alone resolves to no type, and [number | string] to [Number]. *)
Lemma getType_unterminated :
  getType 20 (lit "string") 0 = Some (Ok {| ft_type := None; ft_end := 6 |}) /\
  getType 20 (lit "number | string") 0 =
    Some (Ok {| ft_type := Some (lit "Number"); ft_end := 15 |}) /\
  ~ (exists fuel end_,
       getType fuel (lit "string") 0 =
       Some (Ok {| ft_type := Some (lit "String"); ft_end := end_ |})).
Proof.
  assert (H : getType 20 (lit "string") 0 =
              Some (Ok {| ft_type := None; ft_end := 6 |}))
    by (vm_compute; reflexivity).
  split; [assumption|]. split; [vm_compute; reflexivity|].
  intros (fuel & end_ & Hs).
  pose proof (getType_deterministic _ _ _ _ _ _ H Hs). discriminate.
Qed.

(** C2, amended. With the terminator [;] after the type expression and
    enough fuel, [getType] resolves [string] to [String], [string | null]
    to [String], [number | string] to [Object], [{ a: number }] to
    [Object], [string[]] to [Array] and [Foo<Bar>] to [Foo]; and whenever
    the reduction of the members gives one of the four primitive keyword
    names, the returned type is that name with its first letter
    capitalized. *)
Theorem getType_reduction_table :
  (forall fuel : nat,
     getType (20 + fuel) (lit "string;") 0 =
       Some (Ok {| ft_type := Some (lit "String"); ft_end := 6 |}) /\
     getType (20 + fuel) (lit "string | null;") 0 =
       Some (Ok {| ft_type := Some (lit "String"); ft_end := 13 |}) /\
     getType (20 + fuel) (lit "number | string;") 0 =
       Some (Ok {| ft_type := Some (lit "Object"); ft_end := 15 |}) /\
     getType (20 + fuel) (lit "{ a: number };") 0 =
       Some (Ok {| ft_type := Some (lit "Object"); ft_end := 13 |}) /\
     getType (20 + fuel) (lit "string[];") 0 =
       Some (Ok {| ft_type := Some (lit "Array"); ft_end := 8 |}) /\
     getType (20 + fuel) (lit "Foo<Bar>;") 0 =
       Some (Ok {| ft_type := Some (lit "Foo"); ft_end := 8 |})) /\
  (forall (types : list str) (t : str),
     reduceTypes types = Some t ->
     t = lit "boolean" \/ t = lit "number" \/ t = lit "string" \/ t = lit "object" ->
     resolveTypes types = Some (capitalize t)) /\
  capitalize (lit "boolean") = lit "Boolean" /\
  capitalize (lit "number") = lit "Number" /\
  capitalize (lit "string") = lit "String" /\
  capitalize (lit "object") = lit "Object".
Proof.
  split; [|split].
  - intros fuel. repeat split; apply getType_enough; vm_compute; reflexivity.
  - intros types t Hred Ht. unfold resolveTypes. rewrite Hred.
    destruct Ht as [-> | [-> | [-> | ->]]]; reflexivity.
  - repeat split.
Qed.

Lemma getType_reduction_table_witness :
  resolveTypes [lit "number"; lit "null"] = Some (capitalize (lit "number")).
Proof.
  apply (proj1 (proj2 getType_reduction_table));
    [vm_compute; reflexivity | right; left; reflexivity].
Defined.

(** Once the running result is a type, an ignored keyword leaves it as
    it is. *)
Lemma reduceStep_ignored_later (c : ascii) (t result : str) :
  IS_IGNORED result = true -> result <> TYPES_OBJECT ->
  reduceStep (Some (c :: t)) result = Some (c :: t).
Proof.
  intros Hi Ho. unfold reduceStep.
  rewrite bool_decide_eq_false_2 by assumption. simpl. rewrite Hi. reflexivity.
Qed.

(** C3. An ignored keyword that comes first does become the running
    result: the test for "no type yet" is made before the test for an
    ignored keyword.  So [void] alone reduces to [void], and
    [void | string] to [Object], while [string | void] reduces to
    [string]. *)
Theorem reduceTypes_ignored_first :
  reduceStep None (lit "void") = Some (lit "void") /\
  reduceTypes [lit "void"] = Some (lit "void") /\
  reduceTypes [lit "null"; lit "string"] = Some (lit "Object") /\
  reduceTypes [lit "string"; lit "null"] = Some (lit "string") /\
  (forall fuel : nat,
     getType (20 + fuel) (lit "void;") 0 =
       Some (Ok {| ft_type := Some (lit "void"); ft_end := 4 |}) /\
     getType (20 + fuel) (lit "void | string;") 0 =
       Some (Ok {| ft_type := Some (lit "Object"); ft_end := 13 |}) /\
     getType (20 + fuel) (lit "string | void;") 0 =
       Some (Ok {| ft_type := Some (lit "String"); ft_end := 13 |})).
Proof.
  repeat split; try (vm_compute; reflexivity);
    apply getType_enough; vm_compute; reflexivity.
Qed.

(** The scan of [getType] walks over the characters it has no case for. *)
Lemma getType_loop_plain (name : str) :
  forall (pre tail : str) (fuel : nat) (start : Z) (types : list str),
    Forall (fun x => plainTypeChar x = true) name ->
    getType_loop (length name + fuel) (pre ++ name ++ tail) start (len pre) types =
    getType_loop fuel (pre ++ name ++ tail) start (len pre + len name) types.
Proof.
  induction name as [|x name IH]; intros pre tail fuel start types Hplain.
  - simpl. unfold len at 3. simpl. rewrite Z.add_0_r. reflexivity.
  - inversion Hplain as [|? ? Hx Hrest]; subst.
    cbn [length Nat.add getType_loop]. simpl app. rewrite charAt_app.
    replace (pre ++ x :: name ++ tail) with ((pre ++ [x]) ++ name ++ tail)
      by (rewrite <- app_assoc; reflexivity).
    transitivity (getType_loop (length name + fuel)
                    ((pre ++ [x]) ++ name ++ tail) start (len pre + 1) types).
    { clear IH.
      destruct x as [[] [] [] [] [] [] [] []]; try reflexivity;
        vm_compute in Hx; discriminate Hx. }
    rewrite <- (len_snoc pre x), IH by assumption.
    f_equal. rewrite len_snoc. unfold len. simpl length. lia.
Qed.

(** However long the name before it and whatever follows, a [<] that is
    reached by the scan and has no [>] after it makes [getType] throw,
    with the line of the [<]. *)
Lemma getType_unclosed_generic (spaces name rest : str) (fuel : nat) :
  Forall (fun x => is_space x = true) spaces ->
  Forall (fun x => plainTypeChar x = true) name ->
  (forall c, head name = Some c -> is_space c = false) ->
  ">"%char ∉ rest ->
  getType (S (length name) + fuel) (spaces ++ name ++ "<"%char :: rest) 0 =
  Some (Throw (SyntaxError
                 (1 + countNewlines (spaces ++ name ++ "<"%char :: rest)
                        (len spaces + len name)))).
Proof.
  intros Hsp Hplain Hhead Hrest. unfold getType, goTo.
  assert (Hfirst : exists c tail, name ++ "<"%char :: rest = c :: tail /\
                                  is_space c = false).
  { destruct name as [|c name]; simpl.
    - eexists _, _. split; [reflexivity|reflexivity].
    - eexists _, _. split; [reflexivity|]. apply Hhead. reflexivity. }
  destruct Hfirst as (c & tail & Heq & Hc).
  pose proof (goTo_loop_nonSpace spaces [] tail c
                (S (length (spaces ++ name ++ "<"%char :: rest))) None Hsp Hc) as Hgo.
  simpl app in Hgo. change (len []) with 0 in Hgo. rewrite Z.add_0_l in Hgo.
  rewrite <- Heq in Hgo.
  rewrite Hgo by (rewrite length_app; lia).
  cbn [liftR bindF].
  replace (S (length name) + fuel)%nat with (length name + S fuel)%nat by lia.
  rewrite (getType_loop_plain name spaces ("<"%char :: rest) (S fuel)) by assumption.
  cbn [getType_loop].
  replace (spaces ++ name ++ "<"%char :: rest)
    with ((spaces ++ name) ++ "<"%char :: rest) by (rewrite <- app_assoc; reflexivity).
  replace (len spaces + len name) with (len (spaces ++ name))
    by (unfold len; rewrite length_app; lia).
  rewrite charAt_app.
  unfold findClosing.
  destruct (len (spaces ++ name) + 1 <? 0) eqn:Hneg;
    [apply Z.ltb_lt in Hneg; unfold len in Hneg; lia|].
  replace (drop (Z.to_nat (len (spaces ++ name) + 1))
             ((spaces ++ name) ++ "<"%char :: rest)) with rest.
  2:{ replace (Z.to_nat (len (spaces ++ name) + 1))
        with (length ((spaces ++ name) ++ ["<"%char]))
        by (unfold len; rewrite (length_app _ ["<"%char]); simpl; lia).
      replace ((spaces ++ name) ++ "<"%char :: rest)
        with (((spaces ++ name) ++ ["<"%char]) ++ rest)
        by (rewrite <- app_assoc; reflexivity).
      rewrite drop_app_length. reflexivity. }
  change (GENERIC_BRACKETS !! 1%nat) with (Some ">"%char).
  rewrite findClosing_loop_no_close by assumption.
  reflexivity.
Qed.

(** C4. A [<] without its [>] makes [getType] throw the error of
    [findClosing]; the soft failure (no type, end [-1]) is not what comes
    out, whatever the fuel.  This is so for [Foo<Bar;], and for every
    text in which the scan reaches a [<] that no [>] follows: white
    space, a name made of characters the scan has no case for, the [<],
    and anything without [>]. *)
Theorem getType_unclosed_generic_throws :
  ((forall fuel : nat,
      getType (20 + fuel) (lit "Foo<Bar;") 0 = Some (Throw (SyntaxError 1))) /\
   ~ (exists fuel found, getType fuel (lit "Foo<Bar;") 0 = Some (Ok found))) /\
  (forall (spaces name rest : str) (fuel : nat),
     Forall (fun x => is_space x = true) spaces ->
     Forall (fun x => plainTypeChar x = true) name ->
     (forall c, head name = Some c -> is_space c = false) ->
     ">"%char ∉ rest ->
     getType (S (length name) + fuel) (spaces ++ name ++ "<"%char :: rest) 0 =
     Some (Throw (SyntaxError
                    (1 + countNewlines (spaces ++ name ++ "<"%char :: rest)
                           (len spaces + len name))))).
Proof.
  assert (H : getType 20 (lit "Foo<Bar;") 0 = Some (Throw (SyntaxError 1)))
    by (vm_compute; reflexivity).
  split; [split|].
  - apply getType_enough. exact H.
  - intros (fuel & found & Hs).
    pose proof (getType_deterministic _ _ _ _ _ _ H Hs). discriminate.
  - apply getType_unclosed_generic.
Qed.

(** [ Map<K, V;] after a line feed: the error names line 2. *)
Lemma getType_unclosed_generic_throws_witness :
  getType (S (length (lit "Map")) + 0)
    ([newline; " "%char] ++ lit "Map" ++ "<"%char :: lit "K, V;") 0 =
  Some (Throw (SyntaxError
                 (1 + countNewlines
                        ([newline; " "%char] ++ lit "Map" ++ "<"%char :: lit "K, V;")
                        (len [newline; " "%char] + len (lit "Map"))))).
Proof.
  apply (proj2 getType_unclosed_generic_throws).
  - repeat constructor.
  - repeat constructor.
  - intros c [= <-]. reflexivity.
  - vm_compute. intros H. repeat (inversion H as [|? ? ? H']; subst; clear H; rename H' into H).
Defined.

(** ** The declaration extractor *)

(** The header pattern asks for a white-space character before [class]:
    on the declaration text alone no class is found. *)
Lemma parseDTS_classA_not_found :
  strMatch classA classHeader = None /\
  parseDTS 20 classA = Some (Throw NoClassFound) /\
  ~ (exists fuel data, parseDTS fuel classA = Some (Ok data)).
Proof.
  assert (H : strMatch classA classHeader = None) by (vm_compute; reflexivity).
  split; [assumption|]. split.
  - unfold parseDTS. rewrite H. reflexivity.
  - intros (fuel & data & Hd). unfold parseDTS in Hd. rewrite H in Hd.
    discriminate.
Qed.

(** C5, amended. When a white-space character comes before it, the
    declaration text [class A extends B { x: string; f(y: number):
    boolean; }] is parsed, with enough fuel, into the class name [A], the
    parent [B ] (the text up to the brace, with its space), the one
    property [x] of type [String] and the one method [f] with the
    parameter [y] of type [Number] and the type [Boolean]. *)
Theorem parseDTS_classA (c : ascii) (fuel : nat) :
  is_space c = true ->
  parseDTS (20 + fuel) (c :: classA) =
  Some (Ok {| className := lit "A"; parent := Some (lit "B ");
              properties := [propertyX]; methods := [methodF] |}).
Proof.
  intros Hc. apply parseDTS_enough.
  destruct c as [[] [] [] [] [] [] [] []]; try discriminate Hc;
    vm_compute; reflexivity.
Qed.

Lemma parseDTS_classA_witness :
  parseDTS (20 + 0) (" "%char :: classA) =
  Some (Ok {| className := lit "A"; parent := Some (lit "B ");
              properties := [propertyX]; methods := [methodF] |}).
Proof. apply (parseDTS_classA " "%char 0). reflexivity. Defined.

(** ** The compiled-source extractor *)

(** The two [push] targets of the loop are the two halves of a
    partition, in the order of the list. *)
Lemma classify_filter (defs : list str) (descriptor : option str)
    (decors : list str) :
  forall used filed,
    classify defs descriptor decors used filed =
    (used ++ filter (fun d => d_name d ∉ defs)
               (map (readDecorator descriptor) decors),
     filed ++ filter (fun d => d_name d ∈ defs)
                (map (readDecorator descriptor) decors)).
Proof.
  induction decors as [|decor decors IH]; intros used filed; simpl.
  - rewrite !app_nil_r. reflexivity.
  - rewrite !filter_cons.
    case_bool_decide as Hin; repeat case_decide; try tauto;
      rewrite IH, <- app_assoc; reflexivity.
Qed.







(** * Further properties of the scanner *)

(** ** What [goTo] finds *)

Lemma goTo_loop_found (fuel : nat) (src : str) (term : Term) :
  forall offset prevChar stringOpen k,
    goTo_loop fuel src term offset prevChar stringOpen = Ok k -> k <> -1 ->
    exists c, charAt src k = Some c /\ termMatches term c = true.
Proof.
  induction fuel as [|fuel IH]; intros offset prevChar stringOpen k H Hk;
    simpl in H.
  - injection H as <-. contradiction.
  - destruct (charAt src offset) as [char|] eqn:Hchar.
    2:{ injection H as <-. contradiction. }
    destruct (bool_decide (stringOpen = None) && termMatches term char) eqn:Hm.
    { injection H as <-. apply andb_true_iff in Hm. destruct Hm as [_ Hm].
      exists char. auto. }
    destruct (bracketsOf char) as [brackets|].
    + destruct (findClosing src offset brackets) as [k'|e]; simpl in H;
        [|discriminate].
      eapply IH; eassumption.
    + eapply IH; eassumption.
Qed.

(** An offset answered by [goTo] is an offset of the text, at or after
    the start, and the character there is the target. *)
Theorem goTo_found (src : str) (term : Term) (offset k : Z) :
  goTo src term offset = Ok k -> k <> -1 ->
  offset <= k < len src /\ 0 <= k /\
  exists c, charAt src k = Some c /\ termMatches term c = true.
Proof.
  intros H Hk. destruct (goTo_range _ _ _ _ H) as [Hm|[Hr Hp]];
    [contradiction|].
  split; [assumption|]. split; [assumption|].
  eapply goTo_loop_found; eassumption.
Qed.

Lemma goTo_found_witness :
  0 <= 4 < len (lit "a(;);") /\ 0 <= 4 /\
  exists c, charAt (lit "a(;);") 4 = Some c /\ termMatches semicolon c = true.
Proof.
  apply (goTo_found (lit "a(;);") semicolon 0 4);
    [vm_compute; reflexivity | discriminate].
Defined.

Lemma termMatches_char (c x : ascii) :
  termMatches (TermString [c]) x = bool_decide (c = x).
Proof.
  simpl. apply bool_decide_ext. split; [intros [= ->]|intros ->]; reflexivity.
Qed.

Lemma goTo_loop_indexOf (c : ascii) (rest : str) :
  forall (pre : str) (fuel : nat) (prevChar : option ascii),
    Forall (fun x => noBracketNoQuote x = true) rest ->
    (length rest < fuel)%nat ->
    goTo_loop fuel (pre ++ rest) (TermString [c]) (len pre) prevChar None =
    Ok (indexOf_from [c] rest (len pre)).
Proof.
  induction rest as [|x rest IH]; intros pre fuel prevChar Hplain Hfuel.
  - destruct fuel as [|fuel]; [simpl in Hfuel; lia|].
    cbn [goTo_loop]. rewrite app_nil_r.
    replace (charAt pre (len pre)) with (@None ascii); [reflexivity|].
    symmetry. unfold charAt, len. destruct (_ <? 0); [reflexivity|].
    apply lookup_ge_None. lia.
  - destruct fuel as [|fuel]; [simpl in Hfuel; lia|].
    inversion Hplain as [|? ? Hx Hrest]; subst.
    unfold noBracketNoQuote in Hx. apply andb_true_iff in Hx.
    destruct Hx as [Hb Hq]. apply bool_decide_eq_true_1 in Hb.
    apply negb_true_iff in Hq.
    cbn [goTo_loop]. rewrite charAt_app, termMatches_char.
    cbn [indexOf_from starts_with]. rewrite andb_true_r.
    rewrite bool_decide_eq_true_2 by reflexivity. rewrite andb_true_l.
    destruct (bool_decide (c = x)); [reflexivity|].
    rewrite Hb, Hq.
    replace (pre ++ x :: rest) with ((pre ++ [x]) ++ rest)
      by (rewrite <- app_assoc; reflexivity).
    rewrite <- (len_snoc pre x). apply IH; [assumption|simpl in Hfuel; lia].
Qed.

(** On a text without opening brackets and quotes [goTo] for a
    one-character string is [indexOf], as the comment of the source has
    it, from any start that is not negative. *)
Theorem goTo_like_indexOf (src : str) (c : ascii) (offset : Z) :
  Forall (fun x => noBracketNoQuote x = true) src -> 0 <= offset ->
  goTo src (TermString [c]) offset = Ok (indexOf src [c] offset).
Proof.
  intros Hplain Hoff. unfold goTo, indexOf.
  rewrite Z.max_l by lia.
  destruct (Z.le_gt_cases offset (len src)) as [Hle|Hgt].
  - rewrite Z.min_l by lia.
    set (pre := take (Z.to_nat offset) src).
    set (rest := drop (Z.to_nat offset) src).
    assert (Hsrc : pre ++ rest = src) by apply take_drop.
    assert (Hlen : len pre = offset)
      by (unfold pre, len in *; rewrite length_take; lia).
    pose proof (goTo_loop_indexOf c rest pre (S (length src)) None) as H.
    rewrite Hsrc, Hlen in H. apply H.
    + apply Forall_drop. assumption.
    + unfold rest. rewrite length_drop. lia.
  - rewrite Z.min_r by lia. cbn [goTo_loop].
    replace (charAt src offset) with (@None ascii).
    2:{ symmetry. unfold charAt. destruct (_ <? 0); [reflexivity|].
        apply lookup_ge_None. unfold len in *. lia. }
    rewrite drop_ge by (unfold len; lia). reflexivity.
Qed.

Lemma goTo_like_indexOf_witness :
  goTo (lit "a, b") (TermString [","%char]) 0 =
  Ok (indexOf (lit "a, b") [","%char] 0).
Proof.
  apply (goTo_like_indexOf (lit "a, b") ","%char 0);
    [repeat constructor | lia].
Defined.

(** A string of any other length than one is never found. *)
Lemma goTo_loop_never (s : str) (fuel : nat) (src : str) :
  length s <> 1%nat ->
  forall offset prevChar stringOpen k,
    goTo_loop fuel src (TermString s) offset prevChar stringOpen = Ok k ->
    k = -1.
Proof.
  intros Hs offset prevChar stringOpen k H.
  destruct (Z.eq_dec k (-1)) as [|Hk]; [assumption|].
  destruct (goTo_loop_found _ _ _ _ _ _ _ H Hk) as (c & _ & Hm).
  simpl in Hm. apply bool_decide_eq_true_1 in Hm. subst s. contradiction.
Qed.

(** A separator string that is empty or longer than one character is
    never found by [goTo], so [split] does not split on it: it returns
    the whole text as its one chunk, or the error of an unmatched
    bracket. *)
Theorem split_long_separator (src s : str) (trimmed : bool) (offset : Z) :
  length s <> 1%nat ->
  (goTo src (TermString s) offset = Ok (-1) \/
   exists e, goTo src (TermString s) offset = Throw e) /\
  (split src (TermString s) trimmed = Ok [pushed trimmed src] \/
   exists e, split src (TermString s) trimmed = Throw e).
Proof.
  intros Hs.
  assert (Hgo : forall offset,
            goTo src (TermString s) offset = Ok (-1) \/
            exists e, goTo src (TermString s) offset = Throw e).
  { intros o. destruct (goTo src (TermString s) o) as [k|e] eqn:H; [|eauto].
    left. f_equal. eapply goTo_loop_never; eassumption. }
  split; [apply Hgo|].
  destruct (Hgo 0) as [H|(e & H)].
  - left. apply split_single. assumption.
  - right. exists e. unfold split. cbn [split_loop]. rewrite H. reflexivity.
Qed.

Lemma split_long_separator_witness :
  (goTo (lit "a, b") (TermString (lit ", ")) 0 = Ok (-1) \/
   exists e, goTo (lit "a, b") (TermString (lit ", ")) 0 = Throw e) /\
  (split (lit "a, b") (TermString (lit ", ")) false = Ok [pushed false (lit "a, b")] \/
   exists e, split (lit "a, b") (TermString (lit ", ")) false = Throw e).
Proof.
  apply (split_long_separator (lit "a, b") (lit ", ") false 0). discriminate.
Defined.

(** ** Splitting and joining *)

Lemma join_cons (sep x : str) (l : list str) :
  l <> [] -> join sep (x :: l) = x ++ sep ++ join sep l.
Proof. destruct l; [contradiction|reflexivity]. Qed.

Lemma slice_inside (src : str) (a b : Z) :
  0 <= a <= b -> b <= len src ->
  slice src a b = take (Z.to_nat (b - a)) (drop (Z.to_nat a) src).
Proof.
  intros Ha Hb. unfold slice, relIndex.
  destruct (a <? 0) eqn:H1; [apply Z.ltb_lt in H1; lia|].
  destruct (b <? 0) eqn:H2; [apply Z.ltb_lt in H2; lia|].
  rewrite !Z.min_l by lia. reflexivity.
Qed.

Lemma substr_inside (src : str) (a : Z) :
  0 <= a <= len src -> substr src a = drop (Z.to_nat a) src.
Proof.
  intros Ha. unfold substr, relIndex.
  destruct (a <? 0) eqn:H1; [apply Z.ltb_lt in H1; lia|].
  rewrite Z.min_l by lia. reflexivity.
Qed.

(** A text cut at the offset of a character. *)
Lemma drop_cut (src : str) (start k : Z) (c : ascii) :
  0 <= start <= k -> charAt src k = Some c ->
  drop (Z.to_nat start) src =
  take (Z.to_nat (k - start)) (drop (Z.to_nat start) src) ++
  c :: drop (Z.to_nat (k + 1)) src.
Proof.
  intros Hs Hc. unfold charAt in Hc.
  destruct (k <? 0) eqn:Hk; [discriminate|].
  rewrite <- (take_drop (Z.to_nat (k - start)) (drop (Z.to_nat start) src)) at 1.
  f_equal. rewrite drop_drop.
  replace (Z.to_nat start + Z.to_nat (k - start))%nat with (Z.to_nat k) by lia.
  replace (Z.to_nat (k + 1)) with (S (Z.to_nat k)) by lia.
  apply drop_S. assumption.
Qed.

Lemma split_loop_join (src : str) (c : ascii) (fuel : nat) :
  forall (start : Z) (chunks out : list str),
    0 <= start <= len src -> len src - start < Z.of_nat fuel ->
    split_loop fuel src (TermString [c]) false start chunks = Ok out ->
    exists rest, out = chunks ++ rest /\ rest <> [] /\
                 join [c] rest = drop (Z.to_nat start) src.
Proof.
  induction fuel as [|fuel IH]; intros start chunks out Hstart Hfuel H; [lia|].
  cbn [split_loop] in H.
  destruct (goTo src (TermString [c]) start) as [k|e] eqn:Hgo;
    cbn [bindR] in H; [|discriminate].
  destruct (k =? -1) eqn:Hm1.
  - apply Z.eqb_eq in Hm1. subst k. simpl in H. injection H as <-.
    exists [substr src start]. split; [reflexivity|]. split; [discriminate|].
    simpl. apply substr_inside. assumption.
  - apply Z.eqb_neq in Hm1.
    destruct (goTo_range _ _ _ _ Hgo) as [|[Hr Hp]]; [contradiction|].
    destruct (goTo_loop_found _ _ _ _ _ _ _ Hgo Hm1) as (x & Hx & Hmatch).
    rewrite termMatches_char in Hmatch. apply bool_decide_eq_true_1 in Hmatch.
    subst x.
    destruct (0 <? k + 1) eqn:Hpos; [|apply Z.ltb_ge in Hpos; lia].
    apply IH in H; [|lia|lia].
    destruct H as (rest & -> & Hne & Hjoin).
    exists (slice src start k :: rest). split; [|split; [discriminate|]].
    + unfold pushed. rewrite <- app_assoc. reflexivity.
    + rewrite join_cons by assumption. rewrite Hjoin.
      rewrite slice_inside by lia. simpl app.
      symmetry. apply drop_cut; [lia|assumption].
Qed.

(** Without trimming, the chunks of [split] on a one-character string,
    joined again with that character, are the text. *)
Theorem split_join (src : str) (c : ascii) (chunks : list str) :
  split src (TermString [c]) false = Ok chunks -> join [c] chunks = src.
Proof.
  unfold split. intros H.
  apply split_loop_join in H; [|unfold len; lia|unfold len; lia].
  destruct H as (rest & -> & _ & Hjoin). exact Hjoin.
Qed.

Lemma split_join_witness :
  join [","%char] [lit "f(a,b)"; lit " c"; []] = lit "f(a,b), c,".
Proof.
  apply (split_join (lit "f(a,b), c,") ","%char). vm_compute. reflexivity.
Defined.

(** ** More on the closing-bracket locator *)

(** The offset [findClosing] answers lies after the opening offset,
    inside the text, and holds the closing character of the pair. *)
Theorem findClosing_answer (src brackets : str) (offset k : Z) :
  findClosing src offset brackets = Ok k ->
  offset < k < len src /\
  exists c, charAt src k = Some c /\ brackets !! 1%nat = Some c.
Proof.
  intros H. split.
  - apply (findClosing_range _ _ _ _ H).
  - apply (findClosing_at _ _ _ _ H).
Qed.

Lemma findClosing_answer_witness :
  0 < 5 < len (lit "[a[b]]") /\
  exists c, charAt (lit "[a[b]]") 5 = Some c /\ ARRAY_BRACKETS !! 1%nat = Some c.
Proof.
  apply (findClosing_answer (lit "[a[b]]") ARRAY_BRACKETS 0 5).
  vm_compute. reflexivity.
Defined.

Lemma findClosing_loop_same (b : option ascii) (rest : str) :
  forall pos opened, findClosing_loop b b rest pos opened = None.
Proof.
  induction rest as [|y rest IH]; intros pos opened; simpl; [reflexivity|].
  destruct (bool_decide (Some y = b)); apply IH.
Qed.

Lemma findClosing_loop_undefined (b0 : option ascii) (rest : str) :
  forall pos opened, findClosing_loop b0 None rest pos opened = None.
Proof.
  induction rest as [|y rest IH]; intros pos opened; simpl; [reflexivity|].
  destruct (bool_decide (Some y = b0)); apply IH.
Qed.

(** [findClosing] throws, on every text, when the closing character of
    the pair is the opening one (the [switch] takes the first case), when
    the pair has less than two characters, and when the closing
    character does not occur in the text.  The line of the error is one
    more than the number of line feeds that stand before the offset. *)
Theorem findClosing_never_closes (src brackets : str) (offset : Z) :
  brackets !! 0%nat = brackets !! 1%nat \/
  (length brackets < 2)%nat \/
  (exists c, brackets !! 1%nat = Some c /\ c ∉ src) ->
  findClosing src offset brackets =
  Throw (SyntaxError (1 + countChar newline (segment src 0 offset))).
Proof.
  intros H. rewrite <- countNewlines_count. unfold findClosing.
  destruct (offset + 1 <? 0); [reflexivity|].
  destruct H as [H|[H|(c & Hc & Hnot)]].
  - rewrite H, findClosing_loop_same. reflexivity.
  - rewrite (lookup_ge_None_2 brackets 1) by lia.
    rewrite findClosing_loop_undefined. reflexivity.
  - rewrite Hc, findClosing_loop_no_close; [reflexivity|].
    intros Hin. apply Hnot. eapply subseteq_drop. exact Hin.
Qed.

Lemma findClosing_never_closes_witness :
  findClosing (lit "x" ++ [newline] ++ lit "'a' + 'b'") 2 (lit "''") =
  Throw (SyntaxError 2).
Proof.
  apply (findClosing_never_closes (lit "x" ++ [newline] ++ lit "'a' + 'b'")
           (lit "''") 2).
  left. reflexivity.
Defined.

(** ** The closest match *)

Lemma regExpClosestIndexOf_loop_spec (term : ascii -> bool) (rest : str) :
  forall offset,
    match fm_found (regExpClosestIndexOf_loop term rest offset) with
    | Some c =>
        exists n : nat,
          fm_index (regExpClosestIndexOf_loop term rest offset) =
            offset + Z.of_nat n /\
          rest !! n = Some c /\ term c = true /\
          Forall (fun x => term x = false) (take n rest)
    | None =>
        fm_index (regExpClosestIndexOf_loop term rest offset) = -1 /\
        Forall (fun x => term x = false) rest
    end.
Proof.
  induction rest as [|x rest IH]; intros offset; simpl.
  - split; [reflexivity|constructor].
  - destruct (term x) eqn:Hx; simpl.
    + exists 0%nat. repeat split; try assumption; [lia|constructor].
    + specialize (IH (offset + 1)).
      destruct (fm_found (regExpClosestIndexOf_loop term rest (offset + 1))).
      * destruct IH as (n & Hi & Hl & Ht & Hall). exists (S n).
        repeat split; try assumption; [lia|]. simpl. constructor; assumption.
      * destruct IH as (Hi & Hall). split; [assumption|].
        constructor; assumption.
Qed.

(** From a start that is not negative, [regExpClosestIndexOf] answers the
    first offset at or after it whose character is a match, with that
    character; it answers [-1] and no character exactly when no
    character from the start on is a match. *)
Theorem regExpClosestIndexOf_first (src : str) (term : ascii -> bool)
    (offset : Z) :
  0 <= offset ->
  match fm_found (regExpClosestIndexOf src term offset) with
  | Some c =>
      offset <= fm_index (regExpClosestIndexOf src term offset) < len src /\
      charAt src (fm_index (regExpClosestIndexOf src term offset)) = Some c /\
      term c = true /\
      forall j x, offset <= j < fm_index (regExpClosestIndexOf src term offset) ->
                  charAt src j = Some x -> term x = false
  | None =>
      fm_index (regExpClosestIndexOf src term offset) = -1 /\
      forall j x, offset <= j -> charAt src j = Some x -> term x = false
  end.
Proof.
  intros Hoff. unfold regExpClosestIndexOf.
  destruct (offset <? 0) eqn:Hneg; [apply Z.ltb_lt in Hneg; lia|].
  pose proof (regExpClosestIndexOf_loop_spec term (drop (Z.to_nat offset) src)
                offset) as H.
  assert (Hat : forall j x, offset <= j -> charAt src j = Some x ->
                  drop (Z.to_nat offset) src !! Z.to_nat (j - offset) = Some x).
  { intros j x Hj Hc. unfold charAt in Hc.
    destruct (j <? 0); [discriminate|].
    rewrite lookup_drop, <- Hc. f_equal. lia. }
  destruct (fm_found _) as [c|].
  - destruct H as (n & -> & Hl & Ht & Hall).
    pose proof (lookup_lt_Some _ _ _ Hl) as Hn. rewrite length_drop in Hn.
    split; [unfold len; lia|]. split; [|split; [assumption|]].
    + unfold charAt.
      destruct (offset + Z.of_nat n <? 0) eqn:Hk; [apply Z.ltb_lt in Hk; lia|].
      rewrite lookup_drop in Hl. rewrite <- Hl. f_equal. lia.
    + intros j x Hj Hc. apply Hat in Hc; [|lia].
      rewrite Forall_lookup in Hall. apply (Hall (Z.to_nat (j - offset))).
      rewrite lookup_take_lt by lia. assumption.
  - destruct H as (Hi & Hall). split; [assumption|].
    intros j x Hj Hc. apply Hat in Hc; [|lia].
    rewrite Forall_lookup in Hall. eapply Hall. eassumption.
Qed.

Lemma regExpClosestIndexOf_first_witness :
  let r := regExpClosestIndexOf (lit "a: b") (oneOf (lit ",:")) 0 in
  match fm_found r with
  | Some c =>
      0 <= fm_index r < len (lit "a: b") /\
      charAt (lit "a: b") (fm_index r) = Some c /\
      oneOf (lit ",:") c = true /\
      forall j x, 0 <= j < fm_index r ->
                  charAt (lit "a: b") j = Some x -> oneOf (lit ",:") x = false
  | None =>
      fm_index r = -1 /\
      forall j x, 0 <= j -> charAt (lit "a: b") j = Some x ->
                  oneOf (lit ",:") x = false
  end.
Proof.
  apply (regExpClosestIndexOf_first (lit "a: b") (oneOf (lit ",:")) 0). lia.
Defined.

(** From a negative start nothing is found, whatever the text. *)
Lemma regExpClosestIndexOf_negative (src : str) (term : ascii -> bool)
    (offset : Z) :
  offset < 0 ->
  regExpClosestIndexOf src term offset = {| fm_index := -1; fm_found := None |}.
Proof.
  intros H. unfold regExpClosestIndexOf.
  destruct (offset <? 0) eqn:Hneg; [reflexivity|apply Z.ltb_ge in Hneg; lia].
Qed.

(** * Further properties of the declaration extractor *)

(** ** Names and modifiers *)

Lemma splitChar_not_nil (sep : ascii) (s : str) : splitChar sep s <> [].
Proof.
  induction s as [|c s IH]; simpl; [discriminate|].
  destruct (bool_decide (c = sep)); [discriminate|].
  destruct (splitChar sep s); discriminate.
Qed.

Lemma splitChar_join (sep : ascii) (s : str) :
  join [sep] (splitChar sep s) = s.
Proof.
  induction s as [|c s IH]; simpl; [reflexivity|].
  pose proof (splitChar_not_nil sep s) as Hne.
  case_bool_decide as Hc.
  - subst c. rewrite join_cons by assumption. rewrite IH. reflexivity.
  - destruct (splitChar sep s) as [|h t]; [contradiction|].
    destruct t as [|h' t].
    + simpl in *. rewrite IH. reflexivity.
    + rewrite join_cons by discriminate. rewrite join_cons in IH by discriminate.
      rewrite <- IH. reflexivity.
Qed.

Lemma splitChar_no_sep (sep : ascii) (s : str) :
  Forall (fun word => sep ∉ word) (splitChar sep s).
Proof.
  induction s as [|c s IH]; simpl.
  - constructor; [apply not_elem_of_nil|constructor].
  - case_bool_decide as Hc.
    + constructor; [apply not_elem_of_nil|assumption].
    + destruct (splitChar sep s) as [|h t]; [repeat constructor|].
      * rewrite not_elem_of_cons. split; [congruence|apply not_elem_of_nil].
      * inversion IH as [|? ? Hh Ht]; subst. constructor; [|assumption].
        rewrite not_elem_of_cons. split; [congruence|assumption].
Qed.

(** The modifiers and the name that [getPropertyNoType] returns, joined
    with spaces, are the text between [from] and [to]; no space is in
    the name or in a modifier. *)
Theorem getPropertyNoType_words (src : str) (from to : Z) :
  join [" "%char]
    (pc_modifiers (getPropertyNoType src from to) ++
     [pc_name (getPropertyNoType src from to)]) = slice src from to /\
  (" "%char ∉ pc_name (getPropertyNoType src from to)) /\
  Forall (fun word => " "%char ∉ word)
    (pc_modifiers (getPropertyNoType src from to)).
Proof.
  unfold getPropertyNoType. simpl.
  set (words := splitChar " "%char (slice src from to)).
  pose proof (splitChar_not_nil " "%char (slice src from to)) as Hne.
  pose proof (splitChar_no_sep " "%char (slice src from to)) as Hno.
  fold words in Hne, Hno.
  pose proof (app_removelast_last [] Hne) as Hsplit.
  split; [|split].
  - rewrite <- Hsplit. apply splitChar_join.
  - rewrite Hsplit in Hno. apply Forall_app in Hno.
    destruct Hno as [_ Hlast]. inversion Hlast. assumption.
  - rewrite Hsplit in Hno. apply Forall_app in Hno. tauto.
Qed.

(** ** Field descriptors *)

Lemma setKey_lookup {V : Type} (key k : str) (value : V) (obj : gmap str V) :
  setKey k value obj !! key =
  if bool_decide (k = key /\ key <> lit "__proto__") then Some value
  else obj !! key.
Proof.
  unfold setKey. repeat case_bool_decide; try reflexivity.
  - destruct H0 as [<- Hne]. contradiction.
  - destruct H0 as [<- _]. apply lookup_insert_eq.
  - apply lookup_insert_ne. intros <-. apply H0. split; [reflexivity|assumption].
Qed.

Lemma arrToObject_foldl (value : FieldValue) (arr : list str) :
  forall (obj : gmap str FieldValue) (key : str),
    foldl (fun obj key => setKey key value obj) obj arr !! key =
    if bool_decide (key ∈ arr /\ key <> lit "__proto__") then Some value
    else obj !! key.
Proof.
  induction arr as [|k arr IH]; intros obj key; cbn [foldl].
  - case_bool_decide as H; [|reflexivity].
    destruct H as [Hin _]. apply not_elem_of_nil in Hin. contradiction.
  - rewrite IH, setKey_lookup.
    destruct (decide (key ∈ arr /\ key <> lit "__proto__")) as [Hin|Hin].
    + rewrite (bool_decide_eq_true_2 _ Hin).
      rewrite bool_decide_eq_true_2; [reflexivity|].
      destruct Hin as [Hin Hne]. split; [right; assumption|assumption].
    + rewrite (bool_decide_eq_false_2 _ Hin).
      destruct (decide (k = key /\ key <> lit "__proto__")) as [Hk|Hk].
      * rewrite (bool_decide_eq_true_2 _ Hk).
        rewrite bool_decide_eq_true_2; [reflexivity|].
        destruct Hk as [-> Hne]. split; [left|assumption].
      * rewrite (bool_decide_eq_false_2 _ Hk).
        rewrite bool_decide_eq_false_2; [reflexivity|].
        intros [Hin' Hne]. apply elem_of_cons in Hin'.
        destruct Hin' as [->|Hin']; [apply Hk|apply Hin]; split;
          solve [reflexivity | assumption].
Qed.

(** [arrToObject] holds the value under the keys of the list and has no
    other key; the word [__proto__] in the list makes no key, since the
    assignment goes to the accessor of the prototype. *)
Theorem arrToObject_lookup (arr : list str) (value : FieldValue) (key : str) :
  arrToObject arr value !! key =
  if bool_decide (key ∈ arr /\ key <> lit "__proto__") then Some value
  else None.
Proof.
  unfold arrToObject. rewrite arrToObject_foldl, lookup_empty. reflexivity.
Qed.

(** In a descriptor built by [buildField] the name is always under
    [name], even when a modifier is spelled [name]; [params] and [type]
    hold the parameters and the type when these are given (a type that
    is not empty) and are modifier flags otherwise; every other key is
    [true] if and only if it is one of the modifiers and is not
    [__proto__], which makes no key. *)
Theorem buildField_lookup (mods : list str) (name : str)
    (params : option (list ParamConfig)) (type : option str) (key : str) :
  buildField mods name params type !! lit "name" = Some (VString name) /\
  buildField mods name params type !! lit "params" =
    match params with
    | Some ps => Some (VParams ps)
    | None => if bool_decide (lit "params" ∈ mods) then Some VTrue else None
    end /\
  buildField mods name params type !! lit "type" =
    match type with
    | Some (c :: t) => Some (VString (c :: t))
    | _ => if bool_decide (lit "type" ∈ mods) then Some VTrue else None
    end /\
  (key <> lit "name" -> key <> lit "params" -> key <> lit "type" ->
   buildField mods name params type !! key =
   if bool_decide (key ∈ mods /\ key <> lit "__proto__") then Some VTrue
   else None) /\
  buildField (lit "__proto__" :: mods) name params type =
  buildField mods name params type.
Proof.
  unfold buildField.
  assert (Hn : lit "name" <> lit "params") by discriminate.
  assert (Hn' : lit "name" <> lit "type") by discriminate.
  assert (Hp : lit "params" <> lit "type") by discriminate.
  assert (Hflag : forall k : str, k <> lit "__proto__" ->
            arrToObject mods VTrue !! k =
            if bool_decide (k ∈ mods) then Some VTrue else None).
  { intros k Hk. unfold arrToObject.
    rewrite arrToObject_foldl, lookup_empty.
    destruct (decide (k ∈ mods)) as [Hin|Hin].
    - rewrite !bool_decide_eq_true_2; auto.
    - rewrite !bool_decide_eq_false_2; auto. intros [? _]. contradiction. }
  split; [|split; [|split; [|split]]].
  - apply lookup_union_Some_l.
    destruct params, (truthy type); cbv beta iota zeta;
      repeat (rewrite lookup_insert_ne by congruence);
      apply lookup_singleton_eq.
  - destruct params as [ps|].
    + apply lookup_union_Some_l.
      destruct (truthy type); cbv beta iota zeta;
        repeat (rewrite lookup_insert_ne by congruence);
        apply lookup_insert_eq.
    + rewrite lookup_union_r; [apply Hflag; discriminate|].
      destruct (truthy type); cbv beta iota zeta;
        repeat (rewrite lookup_insert_ne by congruence);
        apply lookup_singleton_ne; congruence.
  - destruct type as [[|c t]|]; cbn [truthy toStringArg]; cbv beta iota zeta.
    + rewrite lookup_union_r; [apply Hflag; discriminate|].
      destruct params; cbv beta iota zeta;
        repeat (rewrite lookup_insert_ne by congruence);
        apply lookup_singleton_ne; congruence.
    + apply lookup_union_Some_l. apply lookup_insert_eq.
    + rewrite lookup_union_r; [apply Hflag; discriminate|].
      destruct params; cbv beta iota zeta;
        repeat (rewrite lookup_insert_ne by congruence);
        apply lookup_singleton_ne; congruence.
  - intros H1 H2 H3.
    rewrite lookup_union_r;
      [unfold arrToObject; rewrite arrToObject_foldl, lookup_empty;
       reflexivity|].
    destruct params, (truthy type); cbv beta iota zeta;
      repeat (rewrite lookup_insert_ne by congruence);
      apply lookup_singleton_ne; congruence.
  - reflexivity.
Qed.

(** The modifier list [__proto__ static]: the descriptor has no key
    [__proto__]. *)
Lemma buildField_lookup_witness :
  buildField [lit "__proto__"; lit "static"] (lit "x") None None
    !! lit "__proto__" =
  if bool_decide (lit "__proto__" ∈ [lit "__proto__"; lit "static"] /\
                  lit "__proto__" <> lit "__proto__")
  then Some VTrue else None.
Proof.
  apply (proj1 (proj2 (proj2 (proj2
           (buildField_lookup [lit "__proto__"; lit "static"] (lit "x") None
              None (lit "__proto__")))))); discriminate.
Defined.

(** ** Parameter lists *)

Lemma regExpClosestIndexOf_stop (term : ascii -> bool) (pre seg tail : str)
    (c : ascii) :
  Forall (fun x => term x = false) seg -> term c = true ->
  regExpClosestIndexOf (pre ++ seg ++ c :: tail) term (len pre) =
  {| fm_index := len pre + len seg; fm_found := Some c |}.
Proof.
  intros Hseg Hc. unfold regExpClosestIndexOf.
  destruct (len pre <? 0) eqn:Hneg; [apply Z.ltb_lt in Hneg; unfold len in Hneg; lia|].
  unfold len at 1. rewrite Nat2Z.id, drop_app_length.
  generalize (len pre). clear Hneg.
  induction seg as [|x seg IH]; intros pos; simpl.
  - rewrite Hc. unfold len. simpl. rewrite Z.add_0_r. reflexivity.
  - inversion Hseg as [|? ? Hx Hrest]; subst. rewrite Hx, IH by assumption.
    f_equal. unfold len. simpl length. lia.
Qed.

Lemma regExpClosestIndexOf_none (term : ascii -> bool) (pre seg : str) :
  Forall (fun x => term x = false) seg ->
  regExpClosestIndexOf (pre ++ seg) term (len pre) =
  {| fm_index := -1; fm_found := None |}.
Proof.
  intros Hseg. unfold regExpClosestIndexOf.
  destruct (len pre <? 0) eqn:Hneg; [reflexivity|].
  unfold len at 1. rewrite Nat2Z.id, drop_app_length.
  generalize (len pre). clear Hneg.
  induction seg as [|x seg IH]; intros pos; simpl; [reflexivity|].
  inversion Hseg as [|? ? Hx Hrest]; subst. rewrite Hx. apply IH. assumption.
Qed.

Lemma slice_middle (pre seg tail : str) :
  slice (pre ++ seg ++ tail) (len pre) (len pre + len seg) = seg.
Proof.
  rewrite slice_inside.
  - unfold len. rewrite Nat2Z.id, drop_app_length.
    replace (Z.to_nat (_ + _ - _)) with (length seg) by lia.
    apply take_app_length.
  - unfold len. lia.
  - unfold len. rewrite !length_app. lia.
Qed.

Lemma parseParams_loop_S (fuel : nat) (src : str) (from to : Z)
    (params : list ParamConfig) :
  parseParams_loop (S fuel) src from to params =
  if negb (from <? to) then retF params
  else
    let firstStop := regExpClosestIndexOf src (oneOf (lit ",:")) from in
    if fm_index firstStop =? -1 then
      retF (params ++ [{| p_name := trim (slice src from to); p_type := None |}])
    else
      let name := trim (slice src from (fm_index firstStop)) in
      if bool_decide (fm_found firstStop = Some ":"%char) then
        found <~ getType fuel src (fm_index firstStop + 1) ;;
        let param :=
          {| p_name := name;
             p_type := if truthy (ft_type found) then ft_type found else None |} in
        parseParams_loop fuel src (ft_end found + 1) to (params ++ [param])
      else
        parseParams_loop fuel src (fm_index firstStop + 1) to
          (params ++ [{| p_name := name; p_type := None |}]).
Proof. reflexivity. Qed.

Lemma parseParams_loop_names (names : list str) :
  forall (pre : str) (last : str) (fuel : nat) (params : list ParamConfig),
    Forall (fun name => Forall (fun x => oneOf (lit ",:") x = false) name)
      (names ++ [last]) ->
    last <> [] ->
    parseParams_loop (S (length names) + fuel)
      (pre ++ join (lit ",") (names ++ [last])) (len pre)
      (len (pre ++ join (lit ",") (names ++ [last]))) params =
    Some (Ok (params ++ map untyped (names ++ [last]))).
Proof.
  induction names as [|name names IH]; intros pre last fuel params Hall Hlast.
  - simpl app. cbn [join length Nat.add parseParams_loop].
    inversion Hall as [|? ? Hl _]; subst.
    assert (Hlt : (len pre <? len (pre ++ last)) = true).
    { apply Z.ltb_lt. unfold len. rewrite length_app.
      destruct last; [contradiction|simpl; lia]. }
    rewrite Hlt. cbn [negb].
    rewrite regExpClosestIndexOf_none by assumption. cbn [fm_index].
    rewrite Z.eqb_refl.
    replace (slice (pre ++ last) (len pre) (len (pre ++ last))) with last;
      [reflexivity|].
    pose proof (slice_middle pre last []) as Hs. rewrite !app_nil_r in Hs.
    rewrite <- Hs at 1. f_equal. unfold len. rewrite length_app. lia.
  - inversion Hall as [|? ? Hn Hrest]; subst.
    assert (Hne : names ++ [last] <> []) by (destruct names; discriminate).
    change ((name :: names) ++ [last]) with (name :: (names ++ [last])).
    rewrite join_cons by assumption.
    set (tail := join (lit ",") (names ++ [last])).
    change (S (length (name :: names)) + fuel)%nat
      with (S (S (length names) + fuel)).
    rewrite parseParams_loop_S. cbv zeta.
    assert (Hlt : (len pre <? len (pre ++ name ++ lit "," ++ tail)) = true).
    { apply Z.ltb_lt. unfold len. rewrite !length_app. simpl. lia. }
    rewrite Hlt. cbn [negb].
    change (name ++ lit "," ++ tail) with (name ++ ","%char :: tail).
    rewrite regExpClosestIndexOf_stop by (assumption || reflexivity).
    cbn [fm_index fm_found].
    destruct (len pre + len name =? -1) eqn:Hm;
      [apply Z.eqb_eq in Hm; unfold len in Hm; lia|].
    rewrite bool_decide_eq_false_2 by discriminate.
    change (name ++ ","%char :: tail) with (name ++ [","%char] ++ tail).
    rewrite slice_middle.
    replace (pre ++ name ++ [","%char] ++ tail)
      with ((pre ++ name ++ [","%char]) ++ tail)
      by (rewrite <- !app_assoc; reflexivity).
    replace (len pre + len name + 1) with (len (pre ++ name ++ [","%char]))
      by (unfold len; rewrite !length_app; simpl; lia).
    unfold tail. unfold untyped at 1. rewrite IH by assumption.
    rewrite <- app_assoc. reflexivity.
Qed.

(** On a text that is a list of bare names separated by commas (no
    colon, the last name not empty), [parseParams] over the whole text
    gives one untyped parameter per name, trimmed, in the order of the
    text. *)
Theorem parseParams_names (names : list str) (last : str) (fuel : nat) :
  Forall (fun name => Forall (fun x => oneOf (lit ",:") x = false) name)
    (names ++ [last]) ->
  last <> [] ->
  parseParams (S (length names) + fuel) (join (lit ",") (names ++ [last])) 0
    (len (join (lit ",") (names ++ [last]))) =
  Some (Ok (map untyped (names ++ [last]))).
Proof.
  intros Hall Hlast.
  apply (parseParams_loop_names names [] last fuel [] Hall Hlast).
Qed.

Lemma parseParams_names_witness :
  parseParams (S (length [lit "a"]) + 0) (join (lit ",") ([lit "a"] ++ [lit " b"])) 0
    (len (join (lit ",") ([lit "a"] ++ [lit " b"]))) =
  Some (Ok (map untyped ([lit "a"] ++ [lit " b"]))).
Proof.
  apply (parseParams_names [lit "a"] (lit " b") 0).
  - repeat constructor.
  - discriminate.
Defined.

(** [parseParams] looks for the next comma in the whole text, not only
    up to [to]: when the first comma or colon from [from] on is a comma
    at or after [to], the one parameter returned is named by the text up
    to that comma, which goes beyond [to]. *)
Theorem parseParams_beyond_to (pre seg tail : str) (to : Z) (fuel : nat) :
  Forall (fun x => oneOf (lit ",:") x = false) seg ->
  len pre < to <= len pre + len seg ->
  parseParams (2 + fuel) (pre ++ seg ++ ","%char :: tail) (len pre) to =
  Some (Ok [untyped seg]).
Proof.
  intros Hseg Hto. unfold parseParams. cbn [Nat.add parseParams_loop].
  destruct (len pre <? to) eqn:H1; [|apply Z.ltb_ge in H1; lia].
  cbn [negb]. rewrite regExpClosestIndexOf_stop by (assumption || reflexivity).
  cbn [fm_index fm_found].
  destruct (len pre + len seg =? -1) eqn:Hm;
    [apply Z.eqb_eq in Hm; unfold len in Hm; lia|].
  rewrite bool_decide_eq_false_2 by discriminate.
  destruct (len pre + len seg + 1 <? to) eqn:H2; [apply Z.ltb_lt in H2; lia|].
  cbn [negb]. change (","%char :: tail) with ([","%char] ++ tail).
  rewrite slice_middle. reflexivity.
Qed.

(** In [f(y), z] the parameter list of [f] ends at offset 3, and the
    parameter comes out as [y)]. *)
Lemma parseParams_beyond_to_witness :
  parseParams (2 + 0) (lit "f(" ++ lit "y)" ++ ","%char :: lit " z") (len (lit "f(")) 3 =
  Some (Ok [untyped (lit "y)")]).
Proof.
  apply (parseParams_beyond_to (lit "f(") (lit "y)") (lit " z") 3 0).
  - repeat constructor.
  - vm_compute. split; [reflexivity|discriminate].
Defined.

(** * Further properties of the type resolver *)

(** ** Blank text *)

Lemma space_plain_for_nonSpace (x : ascii) :
  is_space x = true -> plainScanChar nonSpace x = true.
Proof.
  intros Hx. unfold plainScanChar. destruct (space_not_special x Hx) as [-> ->].
  simpl. rewrite Hx. reflexivity.
Qed.

Lemma goTo_blank (src : str) (offset : Z) :
  offset < 0 \/ Forall (fun x => is_space x = true) (drop (Z.to_nat offset) src) ->
  goTo src nonSpace offset = Ok (-1).
Proof.
  intros [Hneg|Hblank]; unfold goTo.
  - cbn [goTo_loop]. unfold charAt.
    destruct (offset <? 0) eqn:H; [reflexivity|apply Z.ltb_ge in H; lia].
  - destruct (Z.lt_ge_cases offset 0) as [Hlt|Hge].
    { cbn [goTo_loop]. unfold charAt.
      destruct (offset <? 0) eqn:H; [reflexivity|apply Z.ltb_ge in H; lia]. }
    destruct (Z.lt_ge_cases (len src) offset) as [Hbig|Hin].
    { cbn [goTo_loop]. replace (charAt src offset) with (@None ascii);
        [reflexivity|].
      symmetry. unfold charAt. destruct (offset <? 0); [reflexivity|].
      apply lookup_ge_None. unfold len in *. lia. }
    set (pre := take (Z.to_nat offset) src).
    set (rest := drop (Z.to_nat offset) src) in *.
    assert (Hsrc : pre ++ rest ++ [] = src)
      by (rewrite app_nil_r; apply take_drop).
    assert (Hlen : len pre = offset)
      by (unfold pre, len in *; rewrite length_take; lia).
    assert (Hplain : Forall (fun x => plainScanChar nonSpace x = true) rest).
    { eapply Forall_impl; [exact Hblank|]. apply space_plain_for_nonSpace. }
    destruct (goTo_loop_plain nonSpace rest pre [] (S (length pre)) None Hplain)
      as (p & H).
    rewrite Hsrc, Hlen in H.
    replace (S (length src)) with (length rest + S (length pre))%nat
      by (rewrite <- Hsrc, !length_app; simpl; lia).
    rewrite H. cbn [goTo_loop].
    replace (charAt src (offset + len rest)) with (@None ascii); [reflexivity|].
    symmetry. unfold charAt. destruct (_ <? 0); [reflexivity|].
    apply lookup_ge_None. rewrite <- Hsrc, !length_app. unfold len in *.
    simpl. lia.
Qed.

(** The soft failure of [getType] is what a blank text gives: from a
    negative offset, from the end of the text, or when only white space
    follows, the answer is no type and the end offset [-1]. *)
Theorem getType_blank (src : str) (offset : Z) (fuel : nat) :
  offset < 0 \/ Forall (fun x => is_space x = true) (drop (Z.to_nat offset) src) ->
  getType (S fuel) src offset = Some (Ok {| ft_type := None; ft_end := -1 |}).
Proof.
  intros H. unfold getType. rewrite (goTo_blank src offset H).
  reflexivity.
Qed.

Lemma getType_blank_witness :
  getType (S 0) (lit "x:  ") 2 = Some (Ok {| ft_type := None; ft_end := -1 |}).
Proof.
  apply (getType_blank (lit "x:  ") 2 0). right. repeat constructor.
Defined.

(** ** The answer of [getType] *)

Lemma pushType_nonempty (types : list str) (type : str) :
  Forall (fun t => t <> []) types -> Forall (fun t => t <> []) (pushType types type).
Proof.
  intros H. unfold pushType. destruct (0 <? len type) eqn:Hl; [|assumption].
  apply Forall_app. split; [assumption|]. constructor; [|constructor].
  intros ->. discriminate.
Qed.

Lemma snoc_nonempty (types : list str) (type : str) :
  type <> [] -> Forall (fun t => t <> []) types ->
  Forall (fun t => t <> []) (types ++ [type]).
Proof.
  intros Ht H. apply Forall_app. split; [assumption|]. repeat constructor.
  assumption.
Qed.

Lemma getType_loop_done (src : str) (fuel : nat) :
  forall start index types r,
    Forall (fun t => t <> []) types ->
    getType_loop fuel src start index types = Some (Ok r) ->
    match r with
    | ScanDone types' index' =>
        Forall (fun t => t <> []) types' /\
        match charAt src index' with
        | Some c => isTerminator c = true
        | None => True
        end
    | ScanReturn found => found = {| ft_type := None; ft_end := -1 |}
    end.
Proof.
  induction fuel as [|fuel IH]; intros start index types r Hne H;
    [discriminate|].
  simpl in H.
  destruct (charAt src index) as [char|] eqn:Hchar.
  2:{ injection H as <-. rewrite Hchar. auto. }
  assert (Hobj : Forall (fun t => t <> []) (types ++ [TYPES_OBJECT]))
    by (apply snoc_nonempty; [discriminate|assumption]).
  assert (Harr : Forall (fun t => t <> []) (types ++ [TYPES_ARRAY]))
    by (apply snoc_nonempty; [discriminate|assumption]).
  assert (Hstr : Forall (fun t => t <> []) (types ++ [TYPES_STRING]))
    by (apply snoc_nonempty; [discriminate|assumption]).
  pose proof (pushType_nonempty types (trim (slice src start index)) Hne) as Hpush.
  destruct char as [[] [] [] [] [] [] [] []];
    repeat match type of H with
      | match ?r with Ok _ => _ | Throw _ => _ end = Some _ =>
          destruct r; [|discriminate]
      | (if ?b then _ else _) = Some _ => destruct b
      end;
    try (eapply IH; [|exact H]; assumption);
    try (injection H as <-; first [reflexivity | rewrite Hchar; auto]).
Qed.

Lemma reduceStep_nonempty (type : option str) (result : str) :
  result <> [] -> type <> Some [] -> reduceStep type result <> Some [].
Proof.
  intros Hr Ht. unfold reduceStep.
  destruct (_ || _); [congruence|].
  destruct (IS_IGNORED result); [assumption|].
  destruct (bool_decide _); [discriminate|assumption].
Qed.

Lemma reduceTypes_nonempty (types : list str) :
  Forall (fun t => t <> []) types -> reduceTypes types <> Some [].
Proof.
  unfold reduceTypes. assert (Hacc : @None str <> Some []) by discriminate.
  revert Hacc. generalize (@None str).
  induction types as [|t types IH]; intros acc Hacc Hne; simpl; [assumption|].
  inversion Hne; subst. apply IH; [|assumption].
  apply reduceStep_nonempty; assumption.
Qed.

(** When [getType] returns, its end offset is [-1], an offset outside
    the text, or the offset of a terminator [)], [,] or [;]; and its
    type is never the empty string, so that testing the type for truth,
    as the callers do, is testing it for [null]. *)
Theorem getType_answer (src : str) (offset : Z) (fuel : nat) (found : FoundType) :
  getType fuel src offset = Some (Ok found) ->
  match charAt src (ft_end found) with
  | Some c => isTerminator c = true
  | None => True
  end /\
  ft_type found <> Some [].
Proof.
  unfold getType. intros H.
  destruct (goTo src nonSpace offset) as [start|e]; simpl in H; [|discriminate].
  destruct (getType_loop fuel src start start []) as [[scan|e]|] eqn:Hloop;
    simpl in H; try discriminate.
  apply getType_loop_done in Hloop; [|constructor].
  destruct scan as [types index|found'].
  - injection H as <-. simpl. destruct Hloop as [Hne Hend].
    split; [assumption|].
    unfold resolveTypes. pose proof (reduceTypes_nonempty types Hne) as Hred.
    destruct (IS_PRIMITIVE _); [|assumption].
    destruct (reduceTypes types) as [[|c t]|]; simpl; congruence.
  - injection H as <-. subst found'. simpl. unfold charAt. simpl.
    split; [exact I|discriminate].
Qed.

Lemma getType_answer_witness :
  match charAt (lit "x: Foo<Bar> | null, y")
          (ft_end {| ft_type := Some (lit "Foo"); ft_end := 18 |}) with
  | Some c => isTerminator c = true
  | None => True
  end /\
  ft_type {| ft_type := Some (lit "Foo"); ft_end := 18 |} <> Some [].
Proof.
  apply (getType_answer (lit "x: Foo<Bar> | null, y") 2 30).
  vm_compute. reflexivity.
Defined.

(** ** The reduction *)

Lemma reduceStep_object (type : option str) :
  reduceStep type TYPES_OBJECT = Some TYPES_OBJECT.
Proof. reflexivity. Qed.

Lemma fold_object (types : list str) :
  fold_left reduceStep types (Some TYPES_OBJECT) = Some TYPES_OBJECT.
Proof.
  induction types as [|t types IH]; simpl; [reflexivity|].
  replace (reduceStep (Some TYPES_OBJECT) t) with (Some TYPES_OBJECT);
    [assumption|].
  unfold reduceStep. destruct (decide (t = TYPES_OBJECT)) as [->|Ht].
  - reflexivity.
  - rewrite (bool_decide_eq_false_2 _ Ht). cbn [truthy TYPES_OBJECT lit negb orb].
    destruct (IS_IGNORED t); [reflexivity|].
    destruct (bool_decide _); reflexivity.
Qed.

(** [Object] absorbs: a member list that holds it anywhere reduces to
    it, and [getType] then answers [Object]. *)
Theorem reduceTypes_object (types : list str) :
  TYPES_OBJECT ∈ types ->
  reduceTypes types = Some TYPES_OBJECT /\
  resolveTypes types = Some TYPES_OBJECT.
Proof.
  intros Hin. apply list_elem_of_split in Hin. destruct Hin as (l1 & l2 & ->).
  assert (H : reduceTypes (l1 ++ TYPES_OBJECT :: l2) = Some TYPES_OBJECT).
  { unfold reduceTypes. rewrite fold_left_app. simpl.
    rewrite reduceStep_object. apply fold_object. }
  split; [assumption|]. unfold resolveTypes. rewrite H. reflexivity.
Qed.

Lemma reduceTypes_object_witness :
  reduceTypes [lit "string"; lit "Object"; lit "number"] = Some TYPES_OBJECT /\
  resolveTypes [lit "string"; lit "Object"; lit "number"] = Some TYPES_OBJECT.
Proof.
  apply (reduceTypes_object [lit "string"; lit "Object"; lit "number"]).
  right. left.
Defined.

Lemma reduceStep_same (c : ascii) (t : str) :
  reduceStep (Some (c :: t)) (c :: t) = Some (c :: t).
Proof.
  unfold reduceStep. destruct (decide (c :: t = TYPES_OBJECT)) as [Ho|Ho].
  - rewrite (bool_decide_eq_true_2 _ Ho). reflexivity.
  - rewrite (bool_decide_eq_false_2 _ Ho). cbn [truthy negb orb].
    destruct (IS_IGNORED (c :: t)); [reflexivity|].
    rewrite bool_decide_eq_false_2; [reflexivity|]. intros H. apply H. reflexivity.
Qed.

(** A member list that repeats one name reduces to that name; two
    different names, the second one not ignored, reduce to [Object]. *)
Theorem reduceTypes_same_or_object (c : ascii) (t other : str) (n : nat) :
  reduceTypes (replicate (S n) (c :: t)) = Some (c :: t) /\
  (other <> c :: t -> IS_IGNORED other = false ->
   reduceTypes [c :: t; other] = Some TYPES_OBJECT).
Proof.
  split.
  - unfold reduceTypes. simpl.
    replace (reduceStep None (c :: t)) with (Some (c :: t)).
    2:{ unfold reduceStep. simpl. rewrite orb_true_r. reflexivity. }
    induction n as [|n IH]; simpl; [reflexivity|].
    rewrite reduceStep_same. assumption.
  - intros Hne Hig. unfold reduceTypes. simpl.
    replace (reduceStep None (c :: t)) with (Some (c :: t)).
    2:{ unfold reduceStep. simpl. rewrite orb_true_r. reflexivity. }
    unfold reduceStep. destruct (decide (other = TYPES_OBJECT)) as [->|Ho].
    + reflexivity.
    + rewrite (bool_decide_eq_false_2 _ Ho). cbn [truthy negb orb].
      rewrite Hig. rewrite bool_decide_eq_true_2; [reflexivity|].
      congruence.
Qed.

Lemma reduceTypes_same_or_object_witness :
  reduceTypes [lit "Foo"; lit "Bar"] = Some TYPES_OBJECT.
Proof.
  apply (proj2 (reduceTypes_same_or_object "F"%char (lit "oo") (lit "Bar") 0));
    [discriminate | vm_compute; reflexivity].
Defined.

(** ** The keyword tests *)

Lemma starts_with_app (t b : str) : starts_with t (t ++ b) = true.
Proof.
  induction t as [|c t IH]; simpl; [reflexivity|].
  rewrite bool_decide_eq_true_2 by reflexivity. assumption.
Qed.

Lemma indexOf_from_eq (needle rest : str) (pos : Z) :
  indexOf_from needle rest pos =
  if starts_with needle rest then pos
  else match rest with
       | [] => -1
       | _ :: rest' => indexOf_from needle rest' (pos + 1)
       end.
Proof. destruct rest; reflexivity. Qed.

Lemma indexOf_from_occurs (t b : str) (a : str) :
  forall pos, 0 <= pos -> indexOf_from t (a ++ t ++ b) pos <> -1.
Proof.
  induction a as [|x a IH]; intros pos Hpos; rewrite indexOf_from_eq.
  - simpl app. rewrite starts_with_app. lia.
  - destruct (starts_with t ((x :: a) ++ t ++ b)); [lia|].
    simpl app. apply IH. lia.
Qed.

Lemma includes_fragment (a t b : str) : includes (a ++ t ++ b) t = true.
Proof.
  unfold includes, indexOf.
  replace (Z.min (Z.max 0 0) (len (a ++ t ++ b))) with 0
    by (unfold len; lia).
  simpl drop. apply negb_true_iff, Z.eqb_neq, indexOf_from_occurs. lia.
Qed.

(** The test for a primitive is a substring test on the keyword list:
    a type whose name is any fragment of the list, [num] or [t] as much
    as [number], is taken for a primitive and gets its capital letter. *)
Theorem IS_PRIMITIVE_fragment (a t b : str) :
  a ++ t ++ b = lit "boolean|number|string|object" ->
  IS_PRIMITIVE (Some t) = true /\ resolveTypes [t] = Some (capitalize t).
Proof.
  intros H.
  assert (Hp : IS_PRIMITIVE (Some t) = true)
    by (unfold IS_PRIMITIVE; rewrite <- H; apply includes_fragment).
  split; [assumption|].
  unfold resolveTypes.
  replace (reduceTypes [t]) with (Some t).
  - rewrite Hp. reflexivity.
  - unfold reduceTypes, reduceStep. simpl. rewrite orb_true_r. reflexivity.
Qed.

Lemma IS_PRIMITIVE_fragment_witness :
  IS_PRIMITIVE (Some (lit "num")) = true /\
  resolveTypes [lit "num"] = Some (capitalize (lit "num")).
Proof.
  apply (IS_PRIMITIVE_fragment (lit "boolean|") (lit "num")
           (lit "ber|string|object")).
  reflexivity.
Defined.

(** The test for an ignored member is a substring test as well: after a
    first member, a member whose name is any fragment of
    [void|null|undefined|never] leaves the type as it is. *)
Theorem IS_IGNORED_fragment (a t b : str) (c : ascii) (u : str) :
  a ++ t ++ b = lit "void|null|undefined|never" ->
  IS_IGNORED t = true /\ reduceStep (Some (c :: u)) t = Some (c :: u).
Proof.
  intros H.
  assert (Hi : IS_IGNORED t = true)
    by (unfold IS_IGNORED; rewrite <- H; apply includes_fragment).
  split; [assumption|].
  assert (Hne : t <> TYPES_OBJECT).
  { intros ->.
    assert (Hin : "O"%char ∈ lit "void|null|undefined|never").
    { rewrite <- H. apply elem_of_app. right. apply elem_of_app. left.
      left. }
    apply (bool_decide_pack _) in Hin. vm_compute in Hin. exact Hin. }
  unfold reduceStep. rewrite (bool_decide_eq_false_2 _ Hne).
  cbn [truthy negb orb]. rewrite Hi. reflexivity.
Qed.

Lemma IS_IGNORED_fragment_witness :
  IS_IGNORED (lit "defined") = true /\
  reduceStep (Some (lit "Foo")) (lit "defined") = Some (lit "Foo").
Proof.
  apply (IS_IGNORED_fragment (lit "void|null|un") (lit "defined")
           (lit "|never") "F"%char (lit "oo")).
  reflexivity.
Defined.

(** ** A string literal that is not closed *)

Lemma indexOf_absent (c : ascii) (src : str) (from : Z) :
  c ∉ src -> indexOf src [c] from = -1.
Proof.
  intros H. unfold indexOf. apply indexOf_from_absent.
  intros Hin. apply H. eapply subseteq_drop. exact Hin.
Qed.

Lemma indexOf_after (c : ascii) (pre post : str) :
  c ∉ post -> indexOf (pre ++ c :: post) [c] (len pre + 1) = -1.
Proof.
  intros H. unfold indexOf.
  replace (Z.min (Z.max (len pre + 1) 0) (len (pre ++ c :: post)))
    with (len pre + 1)
    by (unfold len; rewrite length_app; simpl; lia).
  replace (Z.to_nat (len pre + 1)) with (length pre + 1)%nat
    by (unfold len; lia).
  rewrite <- drop_drop, drop_app_length. simpl drop.
  apply indexOf_from_absent. assumption.
Qed.

Lemma getType_loop_unclosed_string (pre post : str) :
  Forall (fun x => plainTypeChar x = true) pre -> dquote ∉ post ->
  forall (fuel : nat) (start index : Z) (types : list str),
    0 <= index <= len pre ->
    getType_loop fuel (pre ++ dquote :: post) start index types = None.
Proof.
  intros Hplain Hpost.
  induction fuel as [|fuel IH]; intros start index types Hidx;
    [reflexivity|].
  destruct (getType_loop (S fuel) (pre ++ dquote :: post) start index types)
    as [r|] eqn:Hrun; [exfalso|reflexivity].
  set (before := take (Z.to_nat index) pre).
  set (name := drop (Z.to_nat index) pre).
  assert (Hpre : pre = before ++ name) by (symmetry; apply take_drop).
  assert (Hbefore : len before = index)
    by (unfold before, len in *; rewrite length_take; lia).
  assert (Hname : Forall (fun x => plainTypeChar x = true) name)
    by (apply Forall_drop; assumption).
  apply (getType_loop_mono _ _ (length name + S fuel)) in Hrun; [|lia].
  pose proof (getType_loop_plain name before (dquote :: post) (S fuel) start
                types Hname) as Hskip.
  rewrite Hbefore in Hskip.
  replace (before ++ name ++ dquote :: post) with (pre ++ dquote :: post)
    in Hskip by (rewrite Hpre, <- app_assoc; reflexivity).
  rewrite Hskip in Hrun.
  replace (index + len name) with (len pre) in Hrun
    by (rewrite Hpre; unfold len in *; rewrite length_app; lia).
  cbn [getType_loop] in Hrun.
  rewrite (charAt_app pre post dquote) in Hrun.
  cbn beta iota zeta in Hrun. unfold dquote at 1 in Hrun.
  rewrite (indexOf_after dquote pre post Hpost) in Hrun.
  rewrite IH in Hrun; [discriminate|]. unfold len. lia.
Qed.

(** A string literal type whose closing quote is missing sends the
    cursor back to the start of the text; when no terminator, bracket
    or bar stands before the quote either, [getType] comes to the same
    quote again and never returns, whatever the fuel. *)
Theorem getType_unclosed_string (pre post : str) (offset start : Z) (fuel : nat) :
  Forall (fun x => plainTypeChar x = true) pre -> dquote ∉ post ->
  goTo (pre ++ dquote :: post) nonSpace offset = Ok start ->
  0 <= start <= len pre ->
  getType fuel (pre ++ dquote :: post) offset = None.
Proof.
  intros Hplain Hpost Hgo Hstart. unfold getType. rewrite Hgo.
  cbn [liftR bindF].
  rewrite (getType_loop_unclosed_string pre post Hplain Hpost fuel start start
             [] Hstart).
  reflexivity.
Qed.

Lemma getType_unclosed_string_witness :
  getType 1000 (lit "x: " ++ dquote :: lit "abc") 2 = None.
Proof.
  apply (getType_unclosed_string (lit "x: ") (lit "abc") 2 3 1000).
  - repeat constructor.
  - apply (bool_decide_unpack _). vm_compute. exact I.
  - vm_compute. reflexivity.
  - vm_compute. split; discriminate.
Defined.

(** * Members without a semicolon *)

Lemma regExpClosestIndexOf_found_in (src : str) (term : ascii -> bool)
    (offset : Z) (c : ascii) :
  fm_found (regExpClosestIndexOf src term offset) = Some c -> c ∈ src.
Proof.
  unfold regExpClosestIndexOf. destruct (offset <? 0); [discriminate|].
  intros H.
  pose proof (regExpClosestIndexOf_loop_spec term
                (drop (Z.to_nat offset) src) offset) as Hspec.
  rewrite H in Hspec. destruct Hspec as (n & _ & Hn & _).
  rewrite lookup_drop in Hn. eapply list_elem_of_lookup_2. exact Hn.
Qed.

(** After a member that is not closed by a semicolon the cursor of
    [parseDTS] is [-1]. *)
Lemma parseDTS_round_no_semicolon (src : str) (fuel : nat) (ptr p : Z)
    (b : bool) (f : gmap str FieldValue) :
  ";"%char ∉ src ->
  parseDTS_round fuel src ptr = Some (Ok (Some (p, b, f))) -> p = -1.
Proof.
  intros Hno H. unfold parseDTS_round in H.
  destruct (goTo src nonSpace ptr) as [from|e]; cbn [liftR bindF] in H;
    [|discriminate].
  case_bool_decide; [discriminate|].
  case_bool_decide.
  - destruct (findClosing src _ ROUND_BRACKETS) as [end_|e];
      cbn [liftR bindF] in H; [|discriminate].
    destruct (parseParams fuel src _ end_) as [[params|e]|];
      cbn [bindF] in H; try discriminate.
    case_bool_decide as Hsemi.
    + apply regExpClosestIndexOf_found_in in Hsemi. contradiction.
    + destruct (getType fuel src _) as [[found|e]|]; cbn [bindF] in H;
        try discriminate.
      injection H as <- _ _. apply (indexOf_absent ";"%char). assumption.
  - case_bool_decide as Hsemi.
    + apply regExpClosestIndexOf_found_in in Hsemi. contradiction.
    + destruct (getType fuel src _) as [[found|e]|]; cbn [bindF] in H;
        try discriminate.
      injection H as <- _ _. apply (indexOf_absent ";"%char). assumption.
Qed.

Lemma parseDTS_round_break (src : str) (fuel : nat) (ptr : Z) :
  parseDTS_round fuel src ptr = Some (Ok None) ->
  exists k, goTo src nonSpace ptr = Ok k /\ charAt src k = Some "}"%char.
Proof.
  intros H. unfold parseDTS_round in H.
  destruct (goTo src nonSpace ptr) as [from|e]; cbn [liftR bindF] in H;
    [|discriminate].
  case_bool_decide as Hbrace; [exists from; split; [reflexivity|assumption]|].
  exfalso.
  case_bool_decide.
  - destruct (findClosing src _ ROUND_BRACKETS) as [end_|e];
      cbn [liftR bindF] in H; [|discriminate].
    destruct (parseParams fuel src _ end_) as [[params|e]|];
      cbn [bindF] in H; try discriminate.
    case_bool_decide; [discriminate|].
    destruct (getType fuel src _) as [[found|e]|]; cbn [bindF] in H;
      discriminate.
  - case_bool_decide; [discriminate|].
    destruct (getType fuel src _) as [[found|e]|]; cbn [bindF] in H;
      discriminate.
Qed.

Lemma parseDTS_loop_restart (src : str) :
  ";"%char ∉ src ->
  forall (fuel : nat) (ps ms : list (gmap str FieldValue)) r,
    parseDTS_loop fuel src 0 ps ms = Some (Ok r) ->
    r = (ps, ms) /\
    (len src <= 0 \/ exists fuel0, parseDTS_round fuel0 src 0 = Some (Ok None)).
Proof.
  intros Hno. induction fuel as [|fuel IH]; intros ps ms r H; [discriminate|].
  cbn [parseDTS_loop] in H.
  destruct (0 <? len src) eqn:Hlen; cbn [negb] in H.
  2:{ injection H as <-. split; [reflexivity|]. left.
      apply Z.ltb_ge in Hlen. assumption. }
  apply Z.ltb_lt in Hlen.
  destruct (parseDTS_round fuel src 0) as [[[[[p b] f]|]|e]|] eqn:Hround;
    cbn [bindF] in H; try discriminate.
  - exfalso.
    pose proof (parseDTS_round_no_semicolon src fuel 0 p b f Hno Hround) as ->.
    change (-1 + 1) with 0 in H.
    assert (Hnext : exists ps' ms',
               parseDTS_loop fuel src 0 ps' ms' = Some (Ok r))
      by (destruct b; eauto).
    destruct Hnext as (ps' & ms' & Hnext).
    destruct (IH ps' ms' r Hnext) as [_ [Hempty|[fuel0 Hbreak]]]; [lia|].
    apply (parseDTS_round_mono _ _ (fuel + fuel0)) in Hbreak; [|lia].
    apply (parseDTS_round_mono _ _ (fuel + fuel0)) in Hround; [|lia].
    congruence.
  - injection H as <-. split; [reflexivity|]. right. exists fuel. assumption.
Qed.

Lemma parseDTS_loop_no_semicolon (src : str) (fuel : nat) (ptr : Z)
    (ps ms : list (gmap str FieldValue)) r :
  ";"%char ∉ src ->
  parseDTS_loop fuel src ptr ps ms = Some (Ok r) ->
  r = (ps, ms) \/
  (exists field, r = (ps ++ [field], ms) \/ r = (ps, ms ++ [field])) /\
  (len src <= 0 \/ exists fuel0, parseDTS_round fuel0 src 0 = Some (Ok None)).
Proof.
  intros Hno H. destruct fuel as [|fuel]; [discriminate|].
  cbn [parseDTS_loop] in H.
  destruct (negb (ptr <? len src)); [injection H as <-; left; reflexivity|].
  destruct (parseDTS_round fuel src ptr) as [[[[[p b] f]|]|e]|] eqn:Hround;
    cbn [bindF] in H; try discriminate.
  - pose proof (parseDTS_round_no_semicolon src fuel ptr p b f Hno Hround) as ->.
    change (-1 + 1) with 0 in H. right.
    destruct b; apply (parseDTS_loop_restart src Hno) in H;
      destruct H as [-> Hstop]; (split; [exists f; auto|assumption]).
  - injection H as <-. left. reflexivity.
Qed.

(** [parseDTS] looks for the semicolon that ends a member with
    [indexOf], and goes on from its answer.  In a text without any
    semicolon the answer is [-1] and the scan starts again at the
    beginning of the text: [parseDTS] then returns only when the
    class has no member, or with one member when the text itself begins
    with a closing brace; otherwise it throws or reads the same member
    for ever. *)
Theorem parseDTS_without_semicolon (src : str) (fuel : nat)
    (d : DTSParsedData) :
  ";"%char ∉ src ->
  parseDTS fuel src = Some (Ok d) ->
  (properties d = [] /\ methods d = []) \/
  ((length (properties d) + length (methods d) = 1)%nat /\
   exists k, goTo src nonSpace 0 = Ok k /\ charAt src k = Some "}"%char).
Proof.
  intros Hno H. unfold parseDTS in H.
  destruct (strMatch src classHeader) as [m|] eqn:Hm; [|discriminate].
  cbn zeta in H.
  destruct (parseDTS_loop fuel src _ [] []) as [[[ps ms]|e]|] eqn:Hloop;
    cbn [bindF] in H; try discriminate.
  injection H as <-. cbn [properties methods].
  apply (parseDTS_loop_no_semicolon src _ _ _ _ _ Hno) in Hloop.
  destruct Hloop as [Heq|[[field Hfield] Hstop]].
  - injection Heq as -> ->. left. split; reflexivity.
  - right. split.
    + destruct Hfield as [Heq|Heq]; injection Heq as -> ->; reflexivity.
    + destruct Hstop as [Hempty|[fuel0 Hbreak]].
      * exfalso. destruct src as [|c src]; [discriminate Hm|].
        unfold len in Hempty. simpl in Hempty. lia.
      * apply parseDTS_round_break in Hbreak. assumption.
Qed.

Lemma parseDTS_without_semicolon_witness :
  (properties
     {| className := lit "A"; parent := None; properties := [];
        methods := [] |} = [] /\
   methods
     {| className := lit "A"; parent := None; properties := [];
        methods := [] |} = []) \/
  ((length (properties
      {| className := lit "A"; parent := None; properties := [];
         methods := [] |}) +
    length (methods
      {| className := lit "A"; parent := None; properties := [];
         methods := [] |}) = 1)%nat /\
   exists k, goTo (lit " class A { }") nonSpace 0 = Ok k /\
             charAt (lit " class A { }") k = Some "}"%char).
Proof.
  apply (parseDTS_without_semicolon (lit " class A { }") 5).
  - apply (bool_decide_unpack _). vm_compute. exact I.
  - vm_compute. reflexivity.
Defined.

(** * Compiled sources without decorators *)

Lemma matchRe_star_lit_short {A : Type} (greedy : bool) (p : ascii -> bool)
    (s : str) (r2 : RegExp) (rest : str) (caps : gmap nat str)
    (k : str -> gmap nat str -> option A) :
  (length rest < length s)%nat ->
  matchRe (RSeq (RStar greedy p) (RSeq (RLit s) r2)) rest caps k = None.
Proof.
  intros Hshort.
  destruct (matchRe _ rest caps k) as [x|] eqn:H; [exfalso|reflexivity].
  cbn [matchRe] in H. apply matchStar_suffix in H.
  destruct H as (rest' & Hsuffix & Hk).
  destruct (starts_with s rest') eqn:Hs; [|discriminate].
  apply starts_with_length in Hs. apply suffix_length in Hsuffix. lia.
Qed.

Lemma searchFrom_short (greedy : bool) (p : ascii -> bool) (s : str)
    (r2 : RegExp) (rest : str) :
  forall pos,
    (length rest < length s)%nat ->
    searchFrom (RSeq (RStar greedy p) (RSeq (RLit s) r2)) rest pos = None.
Proof.
  induction rest as [|c rest IH]; intros pos Hshort; cbn [searchFrom];
    unfold matchAt; rewrite matchRe_star_lit_short by assumption;
    [reflexivity|].
  apply IH. simpl in Hshort. lia.
Qed.

Lemma replaceAll_short {St : Type} (greedy : bool) (p : ascii -> bool)
    (s : str) (r2 : RegExp) (src : str)
    (callback : St -> Match -> Result (St * str)) (st : St) :
  (length src < length s)%nat ->
  replaceAll src (RSeq (RStar greedy p) (RSeq (RLit s) r2)) callback st =
  Ok (st, src).
Proof.
  intros Hshort. unfold replaceAll. cbn [replaceAll_loop].
  rewrite searchFrom_short by assumption. reflexivity.
Qed.

Lemma indexOf_from_drop (needle : str) :
  forall (rest : str) (pos : Z),
    0 <= pos -> indexOf_from needle rest pos = -1 ->
    forall (n : nat) (pos' : Z), indexOf_from needle (drop n rest) pos' = -1.
Proof.
  induction rest as [|x rest IH]; intros pos Hpos H n pos';
    rewrite indexOf_from_eq in H;
    destruct (starts_with needle _) eqn:Hs; try lia.
  - rewrite drop_nil, indexOf_from_eq, Hs. reflexivity.
  - destruct n as [|n].
    + rewrite drop_0, indexOf_from_eq, Hs.
      apply (IH (pos + 1) ltac:(lia) H 0%nat).
    + simpl drop. apply (IH (pos + 1) ltac:(lia) H).
Qed.

Lemma indexOf_nowhere (src needle : str) (from : Z) :
  includes src needle = false -> indexOf src needle from = -1.
Proof.
  unfold includes. intros H. apply negb_false_iff, Z.eqb_eq in H.
  unfold indexOf in *.
  replace (Z.min (Z.max 0 0) (len src)) with 0 in H by (unfold len; lia).
  simpl drop in H. apply (indexOf_from_drop needle src 0); [lia|assumption].
Qed.

Lemma slice_substr_last (src : str) : slice src 0 (-1) ++ substr src (-1) = src.
Proof.
  unfold slice, substr, relIndex.
  change (0 <? 0) with false. change (-1 <? 0) with true. cbv beta iota zeta.
  replace (Z.min 0 (len src)) with 0 by (unfold len; lia).
  rewrite Z.sub_0_r. simpl drop. apply take_drop.
Qed.

Lemma substr_last_length (src : str) : (length (substr src (-1)) <= 1)%nat.
Proof.
  unfold substr, relIndex. change (-1 <? 0) with true. cbv beta iota zeta.
  rewrite length_drop. unfold len. lia.
Qed.

(** When the opening of a decoration call occurs nowhere in the
    compiled source, [parseJS] hands the source back as it was, and both
    the decorator and the annotation table are empty: the offset [-1] of
    the helper makes the part that is searched the last character, and
    the part that is kept everything before it. *)
Theorem parseJS_without_decorators (src : str) (dtsData : DTSParsedData)
    (definedAnnotations : list str) (r : JSParsedData) :
  includes src (lit "__decorate([") = false ->
  parseJS src dtsData definedAnnotations = Some (Ok r) ->
  js_src r = src /\ js_decorators r = ∅ /\ js_annotations r = ∅.
Proof.
  intros Hnone H. unfold parseJS in H.
  destruct (findClassBody src (className dtsData)) as [body|e];
    cbn [liftR bindF] in H; [|discriminate].
  destruct (findConstructor _ _ src _) as [[constructorStart constructorEnd]|e];
    cbn [liftR bindF] in H; [|discriminate].
  destruct (defaultValuePattern _) as [valuesPattern|];
    cbn [fmap option_fmap option_map bindF] in H; [|discriminate].
  destruct (replaceAll _ valuesPattern _ _) as [vals|e];
    cbn [liftR bindF] in H; [|discriminate].
  destruct (methodsPattern _ _ _) as [bodiesPattern|];
    cbn [fmap option_fmap option_map bindF] in H; [|discriminate].
  destruct (replaceAll _ bodiesPattern _ _) as [bodies|e];
    cbn [liftR bindF] in H; [|discriminate].
  rewrite (indexOf_nowhere src _ constructorEnd Hnone) in H.
  pose proof (substr_last_length src) as Hlast.
  unfold fieldDecoratorsPattern, classDecoratorsPattern, rseq in H.
  cbn [foldr] in H.
  rewrite replaceAll_short in H by (simpl length; lia).
  cbn [liftR bindF fst snd] in H.
  rewrite replaceAll_short in H
    by (rewrite length_app; simpl length; lia).
  cbn [liftR bindF retF fst snd] in H.
  injection H as <-. cbn [js_src js_decorators js_annotations decorators annotations].
  split; [apply slice_substr_last|]. split; reflexivity.
Qed.

Lemma parseJS_without_decorators_witness :
  js_src
    {| generatedName := None; values := {[ lit "x" := lit "5" ]};
       methodBodies := {[ lit "f" := lit "(y) { return { a: y }; }" ]};
       js_decorators := ∅; js_annotations := ∅; js_src := undecoratedA |} =
  undecoratedA /\
  js_decorators
    {| generatedName := None; values := {[ lit "x" := lit "5" ]};
       methodBodies := {[ lit "f" := lit "(y) { return { a: y }; }" ]};
       js_decorators := ∅; js_annotations := ∅; js_src := undecoratedA |} = ∅ /\
  js_annotations
    {| generatedName := None; values := {[ lit "x" := lit "5" ]};
       methodBodies := {[ lit "f" := lit "(y) { return { a: y }; }" ]};
       js_decorators := ∅; js_annotations := ∅; js_src := undecoratedA |} = ∅.
Proof.
  apply (parseJS_without_decorators undecoratedA modelA []).
  - vm_compute. reflexivity.
  - vm_compute. reflexivity.
Defined.

(** * The helper call that is not removed *)

Lemma starts_with_split (a b rest : str) :
  starts_with (a ++ b) rest =
  starts_with a rest && starts_with b (drop (length a) rest).
Proof.
  revert rest. induction a as [|x a IH]; intros rest; [reflexivity|].
  destruct rest as [|y rest]; [reflexivity|].
  simpl. rewrite IH, andb_assoc. reflexivity.
Qed.

Lemma removeExtend_match (className rest : str) (pos : Z) (m : Match) :
  matchAt (removeExtendPattern className) rest pos = Some m ->
  starts_with (lit "__extends" ++ className ++ lit ", _super;") rest = true.
Proof.
  unfold matchAt, removeExtendPattern, rseq. cbn [foldr matchRe]. intros H.
  destruct (starts_with (lit "__extends") rest) eqn:H1; [|discriminate].
  destruct (starts_with (className ++ lit ", _super") _) eqn:H2;
    [|discriminate].
  destruct (starts_with (lit ";") _) eqn:H3; [|discriminate].
  change (lit ", _super;") with (lit ", _super" ++ lit ";").
  rewrite (app_assoc className), (app_assoc (lit "__extends")).
  rewrite starts_with_split, starts_with_split, H1, H2.
  rewrite length_app, <- drop_drop, H3. reflexivity.
Qed.

Lemma indexOf_0 (src needle : str) :
  indexOf src needle 0 = indexOf_from needle src 0.
Proof.
  unfold indexOf.
  replace (Z.min (Z.max 0 0) (len src)) with 0 by (unfold len; lia).
  reflexivity.
Qed.

Lemma searchFrom_literal (r : RegExp) (needle : str) :
  (forall rest pos m, matchAt r rest pos = Some m ->
                      starts_with needle rest = true) ->
  forall (rest : str) (pos : Z) (m : Match),
    0 <= pos -> searchFrom r rest pos = Some m ->
    indexOf_from needle rest pos <> -1.
Proof.
  intros Hlit. induction rest as [|c rest IH]; intros pos m Hpos H;
    cbn [searchFrom] in H; rewrite indexOf_from_eq;
    destruct (matchAt r _ pos) as [m'|] eqn:Hm.
  - rewrite (Hlit _ _ _ Hm). lia.
  - discriminate.
  - rewrite (Hlit _ _ _ Hm). lia.
  - destruct (starts_with needle (c :: rest)); [lia|].
    apply (IH (pos + 1) m); [lia|assumption].
Qed.

(** The pattern of [removeExtend] is the call text taken as a regular
    expression, in which the parentheses are a group: it matches
    [__extendsC, _super;] and not the call itself.  A source that does
    not hold that text is left as it is. *)
Theorem removeExtend_keeps_call (src className : str) :
  includes src (lit "__extends" ++ className ++ lit ", _super;") = false ->
  replaceFirst src (removeExtendPattern className) [] = src.
Proof.
  intros Hnone. unfold replaceFirst, strMatch.
  destruct (searchFrom (removeExtendPattern className) src 0) as [m|] eqn:Hm;
    [exfalso|reflexivity].
  apply (searchFrom_literal _ _ (removeExtend_match className)) in Hm; [|lia].
  apply Hm. rewrite <- indexOf_0. exact (indexOf_nowhere src _ 0 Hnone).
Qed.

Lemma removeExtend_keeps_call_witness :
  replaceFirst prototypeA (removeExtendPattern (lit "A")) [] = prototypeA.
Proof.
  apply (removeExtend_keeps_call prototypeA (lit "A")).
  vm_compute. reflexivity.
Defined.

(** * Default values *)

Lemma matchRe_lit {A : Type} (s rest : str) (caps : gmap nat str)
    (k : str -> gmap nat str -> option A) :
  matchRe (RLit s) (s ++ rest) caps k = k rest caps.
Proof.
  cbn [matchRe]. rewrite starts_with_app, drop_app_length. reflexivity.
Qed.

Lemma searchFrom_here (r : RegExp) (rest : str) (pos : Z) (m : Match) :
  matchAt r rest pos = Some m -> searchFrom r rest pos = Some m.
Proof. intros H. destruct rest; cbn [searchFrom]; rewrite H; reflexivity. Qed.

Lemma orElse_None_r {A : Type} (x : option A) : orElse x None = x.
Proof. destruct x; reflexivity. Qed.

Lemma value_not_line_end (c : ascii) (v : str) :
  Forall (fun x => dot x = true) (c :: v) ->
  starts_with (lit ";" ++ [newline]) (c :: v ++ lit ";" ++ [newline]) = false.
Proof.
  intros Hdot. inversion Hdot as [|? ? _ Hv]; subst.
  cbn [starts_with lit list_ascii_of_string app].
  destruct v as [|c' v]; cbn [app].
  - cbn [starts_with]. rewrite andb_false_iff. right.
    rewrite andb_false_iff. left. apply bool_decide_eq_false_2. discriminate.
  - inversion Hv as [|? ? Hc' _]; subst.
    cbn [starts_with]. rewrite andb_false_iff. right.
    rewrite andb_false_iff. left. apply bool_decide_eq_false_2.
    intros <-. discriminate Hc'.
Qed.

Lemma matchStar_to_line_end {A : Type} (value : str) (k : str -> option A) :
  Forall (fun x => dot x = true) value ->
  (forall rest, starts_with (lit ";" ++ [newline]) rest = false ->
                k rest = None) ->
  matchStar true dot (value ++ lit ";" ++ [newline]) k =
  k (lit ";" ++ [newline]).
Proof.
  intros Hdot Hk. induction value as [|c v IH].
  - cbn [app lit list_ascii_of_string matchStar]. cbn [dot].
    rewrite (Hk [newline]) by reflexivity. reflexivity.
  - pose proof (value_not_line_end c v Hdot) as Hnot.
    inversion Hdot as [|? ? Hc Hv]; subst.
    change ((c :: v) ++ lit ";" ++ [newline])
      with (c :: (v ++ lit ";" ++ [newline])).
    cbn [matchStar]. rewrite Hc, (IH Hv), (Hk _ Hnot).
    apply orElse_None_r.
Qed.

Lemma nameSource_cons (c : ascii) (rest : str) :
  isSyntaxChar c = false -> Forall (fun x => isSyntaxChar x = false) rest ->
  nameSource (c :: rest) = RSeq (RLit [c]) <$> nameSource rest.
Proof.
  intros Hc Hrest. cbn [nameSource]. rewrite Hc.
  rewrite bool_decide_eq_false_2 by (intros ->; discriminate Hc).
  destruct rest as [|c' rest']; [reflexivity|].
  inversion Hrest as [|? ? Hc' _]; subst.
  destruct c' as [[] [] [] [] [] [] [] []]; try reflexivity.
  discriminate Hc'.
Qed.

(** A name without syntax characters stands for itself in a pattern. *)
Lemma nameSource_literal (name : str) :
  Forall (fun x => isSyntaxChar x = false) name ->
  exists r, nameSource name = Some r /\
    forall (A : Type) (rest : str) (caps : gmap nat str)
           (k : str -> gmap nat str -> option A),
      matchRe r (name ++ rest) caps k = k rest caps.
Proof.
  induction name as [|c name IH]; intros Hname.
  - exists (RLit []). split; [reflexivity|]. intros A rest caps k.
    apply (matchRe_lit []).
  - inversion Hname as [|? ? Hc Hrest]; subst.
    destruct (IH Hrest) as (r & Hr & Hmatch).
    exists (RSeq (RLit [c]) r). split.
    + rewrite nameSource_cons, Hr by assumption. reflexivity.
    + intros A rest caps k. cbn [matchRe app starts_with drop length].
      rewrite bool_decide_eq_true_2 by reflexivity. cbn [andb].
      apply Hmatch.
Qed.

(** On an assignment line [this.NAME = VALUE;] of the constructor, for a
    property name without syntax characters, the replacer of
    [defaultValueAnalyzer] records [VALUE] under [NAME] (under nothing
    when the name is [__proto__]), whatever the value holds on its line,
    semicolons included: the greedy [.*] runs to the last semicolon
    before the line feed.  The name is the source of a pattern: the name
    [x?] of an optional property matches [this.x = 5;], recorded under
    [x], and not the text [this.x? = 5;]. *)
Theorem defaultValue_of_line :
  (forall name value : str,
     Forall (fun x => isSyntaxChar x = false) name ->
     Forall (fun x => dot x = true) value ->
     exists pattern,
       defaultValuePattern [name] = Some pattern /\
       replaceAll
         (lit "this." ++ name ++ lit " = " ++ value ++ lit ";" ++ [newline])
         pattern defaultValueAnalyzer ∅ =
       Ok (if bool_decide (name = lit "__proto__") then ∅
           else {[ name := value ]}, value)) /\
  (exists pattern,
     defaultValuePattern [lit "x?"] = Some pattern /\
     replaceAll (lit "this.x = 5;" ++ [newline]) pattern
       defaultValueAnalyzer ∅ = Ok ({[ lit "x" := lit "5" ]}, lit "5") /\
     replaceAll (lit "this.x? = 5;" ++ [newline]) pattern
       defaultValueAnalyzer ∅ = Ok (∅, lit "this.x? = 5;" ++ [newline])).
Proof.
  split; [|eexists; split; [reflexivity|split; vm_compute; reflexivity]].
  intros name value Hname Hdot.
  destruct (nameSource_literal name Hname) as (r & Hr & Hmatch).
  eexists. split.
  { unfold defaultValuePattern. cbn [alternation]. rewrite Hr. reflexivity. }
  replace (if bool_decide (name = lit "__proto__") then ∅ else {[name := value]})
    with (setKey name value (∅ : gmap str str))
    by (unfold setKey; case_bool_decide; reflexivity).
  unfold replaceAll.
  set (text := lit "this." ++ name ++ lit " = " ++ value ++ lit ";" ++ [newline]).
  set (pattern := rseq _).
  assert (Hm : matchAt pattern text 0 =
               Some {| m_index := 0; m_text := text;
                       m_groups := <[2%nat := value]> (<[1%nat := name]> ∅) |}).
  { unfold matchAt, pattern, rseq, text.
    cbn [foldr]. cbn [matchRe].
    rewrite starts_with_app, drop_app_length.
    rewrite Hmatch.
    rewrite starts_with_app, drop_app_length.
    rewrite matchStar_to_line_end; [|assumption|].
    - cbv beta.
      assert (Hs : starts_with (lit ";" ++ [newline]) (lit ";" ++ [newline]) = true)
        by (vm_compute; reflexivity).
      rewrite Hs.
      change (drop (length (lit ";" ++ [newline])) (lit ";" ++ [newline]))
        with (@nil ascii).
      cbn [starts_with drop length]. rewrite Nat.sub_0_r, firstn_all.
      rewrite (length_app value), Nat.add_sub, take_app_length.
      rewrite (length_app name), Nat.add_sub, take_app_length.
      reflexivity.
    - intros rest Hrest. rewrite Hrest. reflexivity. }
  assert (Hlen : length text = S (length text - 1))
    by (unfold text; rewrite length_app; simpl; lia).
  cbn [replaceAll_loop]. rewrite (searchFrom_here _ _ _ _ Hm).
  clear Hm. clearbody text.
  unfold defaultValueAnalyzer, group.
  cbn [bindR m_index m_text m_groups].
  rewrite lookup_insert_eq.
  rewrite lookup_insert_ne by discriminate. rewrite lookup_insert_eq.
  cbn [default].
  destruct text as [|c text']; [discriminate Hlen|].
  change (Z.to_nat (0 - 0)) with 0%nat. cbn [Nat.add take app].
  rewrite drop_all. unfold id.
  cbn [length replaceAll_loop searchFrom]. unfold matchAt, pattern, rseq.
  cbn [foldr matchRe starts_with lit list_ascii_of_string].
  rewrite app_nil_r. reflexivity.
Qed.

Lemma defaultValue_of_line_witness :
  exists pattern,
    defaultValuePattern [lit "x"] = Some pattern /\
    replaceAll (lit "this." ++ lit "x" ++ lit " = " ++ lit "f(1); g(2)" ++
                lit ";" ++ [newline])
      pattern defaultValueAnalyzer ∅ =
    Ok (if bool_decide (lit "x" = lit "__proto__") then ∅
        else {[ lit "x" := lit "f(1); g(2)" ]}, lit "f(1); g(2)").
Proof.
  apply (proj1 defaultValue_of_line (lit "x") (lit "f(1); g(2)"));
    repeat constructor.
Defined.

(** * The alias of a decorated class *)

(** A class-level decoration call is split like a field-level one: the
    entries named in [definedAnnotations] go to the annotation table,
    the others to the decorator table, both under the key [class].
    When no decorator stays the call is removed and the alias is left
    alone; otherwise the call is written again with the alias, and the
    alias itself is changed for the calls that follow: it gets [ = ]
    appended, or becomes the empty string when there was none. *)
Theorem classDecorators_alias (defs : list str) (className definition : str)
    (decors : list str) (t : Tables) (g : option str) :
  split (trim definition) comma true = Ok decors ->
  let all := map (readDecorator None) decors in
  let kept := filter (fun d => d_name d ∉ defs) all in
  let filed := filter (fun d => d_name d ∈ defs) all in
  let t' := {| decorators := <[lit "class" := kept]> (decorators t);
               annotations := <[lit "class" := filed]> (annotations t) |} in
  let alias := match g with
               | Some (c :: s) => (c :: s) ++ lit " = "
               | _ => []
               end in
  classDecorators defs className (t, g) definition =
  match kept with
  | [] => Ok ((t', g), [])
  | _ :: _ =>
      Ok ((t', Some alias),
          [newline] ++ className ++ lit " = " ++ alias ++
          lit "__decorate([" ++ join (lit ",") (map d_src kept) ++
          lit "], " ++ className ++ lit ");")
  end.
Proof.
  intros Hsplit all kept filed t' alias. unfold classDecorators.
  change (TermString (lit ",")) with comma. rewrite Hsplit. cbn [bindR].
  rewrite classify_filter. cbn [app].
  fold all. fold kept. fold filed. fold t'.
  destruct kept as [|d kept']; [reflexivity|].
  cbn [length Nat.eqb].
  destruct g as [[|c s]|]; reflexivity.
Qed.

Lemma classDecorators_alias_witness :
  classDecorators [lit "Compute"] (lit "A") (noTables, Some (lit "A_1"))
    (lit "Notify(), Compute(fn)") =
  Ok (({| decorators := {[ lit "class" :=
            [{| d_src := lit "Notify()"; d_name := lit "Notify";
                d_params := Some []; d_descriptor := None |}] ]};
          annotations := {[ lit "class" :=
            [{| d_src := lit "Compute(fn)"; d_name := lit "Compute";
                d_params := Some (lit "fn"); d_descriptor := None |}] ]} |},
       Some (lit "A_1 = ")),
      [newline] ++ lit "A = A_1 = __decorate([Notify()], A);").
Proof.
  apply (classDecorators_alias [lit "Compute"] (lit "A")
           (lit "Notify(), Compute(fn)") [lit "Notify()"; lit "Compute(fn)"]
           noTables (Some (lit "A_1"))).
  vm_compute. reflexivity.
Defined.

(** * Sources without the class *)

Lemma starts_with_prefix (s rest : str) :
  starts_with s rest = true -> exists b, rest = s ++ b.
Proof.
  revert rest. induction s as [|x s IH]; intros rest H; [exists rest; reflexivity|].
  destruct rest as [|y rest]; [discriminate|].
  simpl in H. apply andb_true_iff in H. destruct H as [Hxy Hs].
  apply bool_decide_eq_true_1 in Hxy. subst y.
  destruct (IH rest Hs) as [b ->]. exists b. reflexivity.
Qed.

Lemma indexOf_from_suffix (s src rest : str) (pos : Z) :
  0 <= pos -> rest `suffix_of` src -> starts_with s rest = true ->
  indexOf_from s src pos <> -1.
Proof.
  intros Hpos [a ->] Hs. destruct (starts_with_prefix s rest Hs) as [b ->].
  apply indexOf_from_occurs. assumption.
Qed.

Lemma searchFrom_holds (r : RegExp) (s : str) :
  (forall rest pos m, matchAt r rest pos = Some m ->
     exists rest', rest' `suffix_of` rest /\ starts_with s rest' = true) ->
  forall (src : str) (m : Match),
    searchFrom r src 0 = Some m -> includes src s = true.
Proof.
  intros Hlit src m H.
  assert (Hgen : forall (rest : str) (pos : Z),
             searchFrom r rest pos = Some m ->
             exists rest', rest' `suffix_of` rest /\ starts_with s rest' = true).
  { induction rest as [|c rest IH]; intros pos Hrest; cbn [searchFrom] in Hrest;
      destruct (matchAt r _ pos) as [m'|] eqn:Hm; try discriminate;
      try (eapply Hlit; exact Hm).
    destruct (IH _ Hrest) as (rest' & Hsuffix & Hs).
    exists rest'. split; [apply suffix_cons_r; assumption|assumption]. }
  destruct (Hgen src 0 H) as (rest' & Hsuffix & Hs).
  unfold includes. rewrite indexOf_0. apply negb_true_iff, Z.eqb_neq.
  apply (indexOf_from_suffix s src rest'); [lia|assumption|assumption].
Qed.

Lemma es5Header_holds (className rest : str) (pos : Z) (m : Match) :
  matchAt (es5Header className) rest pos = Some m ->
  exists rest', rest' `suffix_of` rest /\
    starts_with (lit "var " ++ className ++ lit " = (function (") rest' = true.
Proof.
  unfold matchAt, es5Header, rseq. cbn [foldr matchRe]. intros H.
  destruct (starts_with _ rest) eqn:Hs; [|discriminate].
  exists rest. split; [reflexivity|assumption].
Qed.

Lemma es6Header_holds (className rest : str) (pos : Z) (m : Match) :
  matchAt (es6Header className) rest pos = Some m ->
  exists rest', rest' `suffix_of` rest /\
    starts_with (lit "class " ++ className) rest' = true.
Proof.
  unfold matchAt, es6Header, rseq. cbn [foldr]. intros H.
  change (matchRe (RSeq ?a ?b) rest ?caps ?k)
    with (matchRe a rest caps (fun rest' caps' => matchRe b rest' caps' k)) in H.
  apply matchRe_suffix in H. destruct H as (rest' & caps' & Hsuffix & H).
  cbn [matchRe] in H.
  destruct (starts_with (lit "class " ++ className) rest') eqn:Hs;
    [|discriminate].
  exists rest'. split; assumption.
Qed.

(** A compiled source that holds neither [var C = (function (] nor
    [class C] has no class [C]: [findClassBody] throws, and [parseJS]
    with it, before anything is read. *)
Theorem parseJS_no_class (src : str) (dtsData : DTSParsedData)
    (definedAnnotations : list str) :
  includes src (lit "var " ++ className dtsData ++ lit " = (function (") = false ->
  includes src (lit "class " ++ className dtsData) = false ->
  findClassBody src (className dtsData) = Throw NoClassFound /\
  parseJS src dtsData definedAnnotations = Some (Throw NoClassFound).
Proof.
  intros H5 H6.
  assert (Hbody : findClassBody src (className dtsData) = Throw NoClassFound).
  { unfold findClassBody, strMatch.
    destruct (searchFrom (es5Header _) src 0) as [m|] eqn:Hm5.
    { apply (searchFrom_holds _ _ (es5Header_holds _)) in Hm5. congruence. }
    destruct (searchFrom (es6Header _) src 0) as [m|] eqn:Hm6.
    { apply (searchFrom_holds _ _ (es6Header_holds _)) in Hm6. congruence. }
    reflexivity. }
  split; [assumption|]. unfold parseJS. rewrite Hbody. reflexivity.
Qed.

Lemma parseJS_no_class_witness :
  findClassBody nativeA (className
     {| className := lit "C"; parent := None; properties := [];
        methods := [] |}) = Throw NoClassFound /\
  parseJS nativeA
    {| className := lit "C"; parent := None; properties := []; methods := [] |}
    [] = Some (Throw NoClassFound).
Proof.
  apply (parseJS_no_class nativeA
           {| className := lit "C"; parent := None; properties := [];
              methods := [] |} []);
    vm_compute; reflexivity.
Defined.

(** * The top level of the scanner and of the specification *)

(** ** Brackets and quote marks *)



Lemma closerOf_pairs (o close : ascii) :
  closerOf o = Some close ->
  (o = "{" /\ close = "}")%char \/ (o = "[" /\ close = "]")%char \/
  (o = "(" /\ close = ")")%char \/ (o = "<" /\ close = ">")%char.
Proof.
  destruct o as [[] [] [] [] [] [] [] []]; simpl; intros H;
    try discriminate; injection H as <-; auto.
Qed.

(** What the proofs need of a pair. *)
Lemma closerOf_facts (o close : ascii) :
  closerOf o = Some close ->
  o <> close /\ closerOf close = None /\ isCloser close = true /\
  isCloser o = false /\ isQuoteMark o = false /\ isQuoteMark close = false /\
  close <> backslash /\ o <> backslash.
Proof.
  intros H. apply closerOf_pairs in H.
  destruct H as [[-> ->]|[[-> ->]|[[-> ->]|[-> ->]]]];
    repeat split; try reflexivity; discriminate.
Qed.


Lemma closerOf_not_closer (c close : ascii) :
  closerOf c = Some close -> isCloser c = false.
Proof. intros H. apply closerOf_facts in H. tauto. Qed.

Lemma isCloser_not_opener (c : ascii) :
  isCloser c = true -> closerOf c = None /\ isQuoteMark c = false.
Proof.
  destruct c as [[] [] [] [] [] [] [] []]; simpl; intros H;
    try discriminate; split; reflexivity.
Qed.

(** ** A bracket pair, read by the reader and counted by [findClosing] *)





(** ** The scanner at top level *)




(** ** The splitter *)










(** ** Decorator lists *)




(** ** Method bodies *)





